(** * A shallow embedding of [CommunityFinder] (src/scheduler/main.py)

    The recursive community decomposition [find_communities_recursive], the
    property computation [find_topological_and_centrality_properties], the
    key-regulator selection and the argument handling of [parse].

    The igraph graph is modelled by its vertex names (the ["_nx_name"]
    attribute, in vertex-index order) and its edge list of index pairs.
    Floating-point quotients are modelled as exact rationals [Q]. *)

From Stdlib Require Import QArith Sorted Permutation Ascii.
From stdpp Require Import gmap strings list.


(** ** Python-level errors *)

Inductive py_error :=
  | TypeError (msg : string)
  | ValueError (msg : string)
  | ZeroDivisionError
  | IndexError
  | KeyError
  (** [communities] read before assignment: a method other than 0 or 1 *)
  | UnboundLocalError
  (** the recursion did not finish within its fuel: it diverges *)
  | OutOfFuel.

Inductive result (A : Type) :=
  | Ok (a : A)
  | Err (e : py_error).
Arguments Ok {A} a.
Arguments Err {A} e.

Definition bind {A B} (r : result A) (k : A -> result B) : result B :=
  match r with Ok a => k a | Err e => Err e end.

Notation "'let!' x := r 'in' k" := (bind r (fun x => k))
  (at level 200, x name, r at level 100, k at level 200).

(** ** Graphs *)

Record graph := mk_graph {
  names : list string;          (* graph.vs[i]["_nx_name"] *)
  edges : list (nat * nat)      (* graph.get_edgelist() *)
}.

Definition vcount (g : graph) : nat := length (names g).

(** [graph.degree()]: a self-loop counts twice, as in igraph. *)
Definition degree (g : graph) (v : nat) : nat :=
  fold_right (fun '(a, b) acc =>
    (if Nat.eqb a v then 1 else 0) + (if Nat.eqb b v then 1 else 0) + acc)
    0 (edges g).

Definition degrees (g : graph) : list nat := map (degree g) (seq 0 (vcount g)).

(** [graph.neighbors(v)]: one entry per incident edge end. *)
Definition neighbors (g : graph) (v : nat) : list nat :=
  flat_map (fun '(a, b) =>
    (if Nat.eqb a v then [b] else []) ++ (if Nat.eqb b v then [a] else []))
    (edges g).

Definition vname (g : graph) (i : nat) : string := nth i (names g) ""%string.

(** [[[graph.vs[e]["_nx_name"] for e in line] for line in graph.get_edgelist()]] *)
Definition edge_names (g : graph) : list (list string) :=
  map (fun '(a, b) => [vname g a; vname g b]) (edges g).

(** [has_cycles]: [nx.find_cycle] on [nx.Graph(graph.get_edgelist())].
    The networkx graph merges parallel edges and keeps self-loops; a cycle
    exists iff some edge joins two vertices already connected (a self-loop
    joins a vertex to itself).  Connectivity is tracked by a labelling of
    the vertices that is merged at every edge. *)
Definition norm_edge (e : nat * nat) : nat * nat :=
  let '(a, b) := e in if Nat.leb a b then (a, b) else (b, a).

Definition edge_eqb (e f : nat * nat) : bool :=
  Nat.eqb (fst e) (fst f) && Nat.eqb (snd e) (snd f).

Definition nx_edges (es : list (nat * nat)) : list (nat * nat) :=
  fold_left (fun acc e =>
    if existsb (edge_eqb (norm_edge e)) acc then acc else acc ++ [norm_edge e])
    es [].

Fixpoint closes_cycle (lab : nat -> nat) (es : list (nat * nat)) : bool :=
  match es with
  | [] => false
  | (u, v) :: es' =>
      if Nat.eqb (lab u) (lab v) then true
      else closes_cycle
             (fun y => if Nat.eqb (lab y) (lab v) then lab u else lab y) es'
  end.

Definition has_cycles (g : graph) : bool :=
  closes_cycle (fun y => y) (nx_edges (edges g)).

(** [graph.subgraph(graph.vs.select(community_vertices))]: the induced
    subgraph, vertices kept in index order and renumbered. *)
Definition memb (x : nat) (l : list nat) : bool := existsb (Nat.eqb x) l.

Fixpoint index_of (x : nat) (l : list nat) : nat :=
  match l with
  | [] => 0
  | y :: l' => if Nat.eqb x y then 0 else S (index_of x l')
  end.

Definition induced (g : graph) (vs : list nat) : graph :=
  let keep := List.filter (fun i => memb i vs) (seq 0 (vcount g)) in
  {| names := map (vname g) keep;
     edges := map (fun '(a, b) => (index_of a keep, index_of b keep))
                (List.filter (fun '(a, b) => memb a keep && memb b keep) (edges g)) |}.

(** ** Strings *)

(** [str(i)] for a natural number: its decimal digits. *)
Fixpoint digits_aux (fuel n : nat) (acc : string) : string :=
  match fuel with
  | O => acc
  | S f =>
      let acc' := String (Ascii.ascii_of_nat (48 + n mod 10)) acc in
      if Nat.ltb n 10 then acc' else digits_aux f (n / 10) acc'
  end.

Definition str_of_nat (n : nat) : string := digits_aux (S n) n ""%string.

(** [s.count('_')] *)
Fixpoint count_us (s : string) : nat :=
  match s with
  | EmptyString => 0
  | String c s' => (if Ascii.eqb c "_"%char then 1 else 0) + count_us s'
  end.

(** [s.split('_')[-1]] *)
Fixpoint last_seg_aux (s : string) (cur : string) : string :=
  match s with
  | EmptyString => cur
  | String c s' =>
      if Ascii.eqb c "_"%char then last_seg_aux s' ""%string
      else last_seg_aux s' (cur ++ String c "")%string
  end.

Definition last_seg (s : string) : string := last_seg_aux s ""%string.

(** ** The igraph algorithms the code delegates to

    Community detection and the centrality measures are library calls; the
    development is generic in them. *)
Class IGraphLib := {
  community_multilevel : graph -> list (list nat);
  community_leading_eigenvector : graph -> list (list nat);
  evcent : graph -> list Q;
  betweenness : graph -> list Q;
  closeness : graph -> list Q;
  transitivity_local_undirected : graph -> list Q
}.

(** Python list indexing [l[i]] for a non-negative [i]. *)
Definition py_index {A} (l : list A) (i : nat) : result A :=
  match nth_error l i with Some x => Ok x | None => Err IndexError end.

(** [l.count(x)] *)
Definition py_count (l : list nat) (x : nat) : nat :=
  length (List.filter (Nat.eqb x) l).

Definition Q_of_nat (n : nat) : Q := inject_Z (Z.of_nat n).

Definition sum_nat (l : list nat) : nat := fold_right Nat.add 0 l.

Definition sentinel : list Q := [-1; -1; -1; -1; -1; -1; -1]%Q.

Section Properties.
Context `{IGraphLib}.

(** The seven values computed for one vertex (the list literal of the
    loop body, evaluated left to right). *)
Definition vertex_properties (g : graph) (n : nat) (dnorm : Q)
    (v : nat) : result (list Q) :=
  let degs := degrees g in
  let nb := neighbors g v in
  let! e := py_index (evcent g) v in
  let! b := py_index (betweenness g) v in
  let! c := py_index (closeness g) v in
  let! dv := py_index degs v in
  let! cc := py_index (transitivity_local_undirected g) v in
  let! nc := (if Nat.eqb (length nb) 0 then Err ZeroDivisionError
              else Ok (Q_of_nat (sum_nat (map (degree g) nb)) / Q_of_nat (length nb))%Q) in
  Ok [e / dnorm; b / dnorm; c;
      Q_of_nat (py_count degs dv) / Q_of_nat (length degs);
      cc; nc; Q_of_nat dv]%Q.

(** One iteration of [for vertex_index in vertex_indices: _output[vertex_index] = [...]]. *)
Definition props_step (g : graph) (n : nat) (dnorm : Q) :=
  fun (acc : result (gmap nat (list Q))) (v : nat) =>
    let! out := acc in
    let! p := vertex_properties g n dnorm v in
    Ok (<[v := p]> out).

(** [find_topological_and_centrality_properties] *)
Definition find_properties (g : graph) (vertex_indices : list nat)
    : result (gmap nat (list Q)) :=
  let n := vcount g in
  if Nat.ltb n 3 then
    Ok (fold_left (fun out i => <[i := sentinel]> out) vertex_indices ∅)
  else
    let dnorm := (Q_of_nat ((n - 1) * (n - 2)) / 2)%Q in
    fold_left (props_step g n dnorm) vertex_indices (Ok ∅).

End Properties.

(** ** The decomposition tree and the object state *)

(** A tree dictionary; a key the code never assigned is [None].  The root
    dictionary's fields for the output format, the minimum size and the bin
    width are plain copies of the arguments and are left out. *)
Set Warnings "-register-all".
Inductive node := mk_node {
  name : option string;
  lineage : option string;
  current_depth : option nat;
  has_keyreg : option bool;
  num_vertices : option nat;
  is_leaf_node : option bool;
  cf_algo : option string;
  key_regs : gmap string (list (string * Q));
  children : list node
}.

(** [_c_tree] *)
Definition child_init : node :=
  {| name := None; lineage := None; current_depth := None; has_keyreg := None;
     num_vertices := None; is_leaf_node := None; cf_algo := None;
     key_regs := ∅; children := [] |}.

(** [self.tree['root']] as [parse] creates it. *)
Definition root_init : node :=
  {| name := Some "root"; lineage := Some "0"; current_depth := Some 0;
     has_keyreg := Some false; num_vertices := Some 0;
     is_leaf_node := Some false; cf_algo := Some "";
     key_regs := ∅; children := [] |}%string.

Definition set_leaf (t : node) : node :=
  {| name := name t; lineage := lineage t; current_depth := current_depth t;
     has_keyreg := has_keyreg t; num_vertices := num_vertices t;
     is_leaf_node := Some true; cf_algo := cf_algo t;
     key_regs := key_regs t; children := children t |}.

Definition add_child (t : node) (c : node) : node :=
  {| name := name t; lineage := lineage t; current_depth := current_depth t;
     has_keyreg := has_keyreg t; num_vertices := num_vertices t;
     is_leaf_node := is_leaf_node t; cf_algo := cf_algo t;
     key_regs := key_regs t; children := children t ++ [c] |}.

Definition set_cf_algo (t : node) (a : string) : node :=
  {| name := name t; lineage := lineage t; current_depth := current_depth t;
     has_keyreg := has_keyreg t; num_vertices := num_vertices t;
     is_leaf_node := is_leaf_node t; cf_algo := Some a;
     key_regs := key_regs t; children := children t |}.

(** The dictionaries of the [CommunityFinder] object the recursion writes.
    The trace holds [""] before the run and the [depth] argument (a string,
    or [None] at the root) after a visit. *)
Record cf_state := mk_state {
  leaf_communities_edgelist : gmap (option string) (list (list string));
  root_communities_edgelist : gmap string (list (list string));
  communities_subgraph_inclusive : gmap string graph;
  key_reg_trace : gmap string (option string)
}.

Definition put_leaf (k : option string) (el : list (list string)) (s : cf_state) :=
  {| leaf_communities_edgelist := <[k := el]> (leaf_communities_edgelist s);
     root_communities_edgelist := root_communities_edgelist s;
     communities_subgraph_inclusive := communities_subgraph_inclusive s;
     key_reg_trace := key_reg_trace s |}.

Definition put_root (k : string) (el : list (list string)) (s : cf_state) :=
  {| leaf_communities_edgelist := leaf_communities_edgelist s;
     root_communities_edgelist := <[k := el]> (root_communities_edgelist s);
     communities_subgraph_inclusive := communities_subgraph_inclusive s;
     key_reg_trace := key_reg_trace s |}.

Definition put_inclusive (k : string) (g : graph) (s : cf_state) :=
  {| leaf_communities_edgelist := leaf_communities_edgelist s;
     root_communities_edgelist := root_communities_edgelist s;
     communities_subgraph_inclusive := <[k := g]> (communities_subgraph_inclusive s);
     key_reg_trace := key_reg_trace s |}.

Definition put_trace (k : string) (d : option string) (s : cf_state) :=
  {| leaf_communities_edgelist := leaf_communities_edgelist s;
     root_communities_edgelist := root_communities_edgelist s;
     communities_subgraph_inclusive := communities_subgraph_inclusive s;
     key_reg_trace := <[k := d]> (key_reg_trace s) |}.

(** ** Pieces of [find_communities_recursive] *)

Definition property_headings : list string :=
  ["eigen_vector_centrality"; "betweenness_centrality"; "closeness_centrality";
   "probability_degree_distribution"; "clustering_coefficient";
   "neighborhood_connectivity"; "current_degree"]%string.

(** [_key_reg_vertex]: [[i.index, i["_nx_name"]]] for the key regulators. *)
Definition key_reg_vertex (key_regulators : list string) (g : graph)
    : list (nat * string) :=
  List.filter (fun p => bool_decide (snd p ∈ key_regulators))
    (map (fun i => (i, vname g i)) (seq 0 (vcount g))).

(** [l[vertex_name][heading] = value] for every key regulator; [props] is
    indexed like a dict ([KeyError] when absent). *)
Definition build_key_regs (props : gmap nat (list Q)) (krv : list (nat * string))
    : result (gmap string (list (string * Q))) :=
  fold_left (fun acc '(vid, nm) =>
    let! l := acc in
    match props !! vid with
    | Some vals => Ok (<[nm := combine property_headings vals]> l)
    | None => Err KeyError
    end) krv (Ok ∅).

(** Python's [list.remove(x)]: drops the first element equal to [x]. *)
Fixpoint py_remove (x : list nat) (l : list (list nat)) : list (list nat) :=
  match l with
  | [] => []
  | y :: l' => if bool_decide (y = x) then l' else y :: py_remove x l'
  end.

(** [for vertices in communities:
        if len(vertices) == len(graph.vs): communities.remove(vertices)]
    The list iterator walks an index [i] over the list as it is mutated. *)
Fixpoint remove_full_loop (fuel n i : nat) (l : list (list nat)) : list (list nat) :=
  match fuel with
  | O => l
  | S f =>
      match nth_error l i with
      | None => l
      | Some x =>
          if Nat.eqb (length x) n then remove_full_loop f n (S i) (py_remove x l)
          else remove_full_loop f n (S i) l
      end
  end.

Definition remove_full (n : nat) (l : list (list nat)) : list (list nat) :=
  remove_full_loop (length l) n 0 l.

(** The child lineage [str(cg_index)] or [f"{depth}_{cg_index}"]. *)
Definition child_lineage (depth : option string) (i : nat) : string :=
  match depth with
  | None => str_of_nat i
  | Some d => (d ++ "_" ++ str_of_nat i)%string
  end.

(** ** [find_communities_recursive]

    [fuel] bounds the recursion depth ([OutOfFuel] stands for a run that
    does not stop); [min_vertices] is [self.subgraph_min_vertices] and
    [key_regulators] the keys of [self.key_regulators]. *)
Section Decomposer.
Context `{IGraphLib}.
Variable min_vertices : Z.
Variable key_regulators : list string.

Definition communities (method : nat) (g : graph) : result (list (list nat)) :=
  if Nat.eqb method 1 then Ok (community_leading_eigenvector g)
  else if Nat.eqb method 0 then Ok (community_multilevel g)
  else Err UnboundLocalError.

(** The loop over the remaining communities: the [cg_index]-th one
    (from 1) is decomposed by [recurse] and its tree appended. *)
Fixpoint children_loop
    (recurse : graph -> option string -> node -> cf_state -> result (node * cf_state))
    (g : graph) (depth : option string) (i : nat) (cs : list (list nat))
    (tree : node) (s : cf_state) : result (node * cf_state) :=
  match cs with
  | [] => Ok (tree, s)
  | cv :: cs' =>
      let sub_graph := induced g cv in
      let! r := recurse sub_graph (Some (child_lineage depth i)) child_init s in
      children_loop recurse g depth (S i) cs' (add_child tree (fst r)) (snd r)
  end.

(** The node fields written before the stop tests. *)
Definition fill_node (t : node) (g : graph) (depth : option string)
    (l : gmap string (list (string * Q))) (has_kr : bool) : node :=
  let lin := match depth with None => "0"%string | Some d => d end in
  {| lineage := Some lin;
     current_depth := Some (count_us lin + 1);
     key_regs := l;
     num_vertices := Some (vcount g);
     has_keyreg := Some has_kr;
     name := Some (match depth with None => "root"%string | Some d => last_seg d end);
     is_leaf_node := is_leaf_node t; cf_algo := cf_algo t;
     children := children t |}.

Fixpoint find_communities_recursive (fuel : nat) (method : nat) (g : graph)
    (depth : option string) (tree : node) (s : cf_state)
    : result (node * cf_state) :=
  match fuel with
  | O => Err OutOfFuel
  | S fuel' =>
      let s := match depth with
               | Some d => put_inclusive d g s
               | None => s
               end in
      let krv := key_reg_vertex key_regulators g in
      let s := fold_left (fun s p => put_trace (snd p) depth s) krv s in
      let has_kr := negb (Nat.eqb (length krv) 0) in
      let! props := find_properties g (map fst krv) in
      let! l := build_key_regs props krv in
      let tree := fill_node tree g depth l has_kr in
      if negb (has_cycles g) then Ok (set_leaf tree, s)
      else if (Z.of_nat (vcount g) <=? min_vertices)%Z then
        let el := edge_names g in
        if Nat.ltb 1 (length el) then Ok (set_leaf tree, put_leaf depth el s)
        else Ok (tree, s)
      else
        let s := match depth with
                 | Some d => put_root ("0_" ++ d)%string (edge_names g) s
                 | None => s
                 end in
        let! comms := communities method g in
        let comms := remove_full (vcount g) comms in
        children_loop (find_communities_recursive fuel' method) g depth 1 comms tree s
  end.

(** The invocations of [find_communities_recursive] a run makes, in call
    order, as pairs of the [depth] argument and the graph argument. *)
Fixpoint calls_loop
    (recurse : graph -> option string -> list (option string * graph))
    (g : graph) (depth : option string) (i : nat) (cs : list (list nat))
    : list (option string * graph) :=
  match cs with
  | [] => []
  | cv :: cs' =>
      recurse (induced g cv) (Some (child_lineage depth i))
        ++ calls_loop recurse g depth (S i) cs'
  end.

Fixpoint calls (fuel : nat) (method : nat) (g : graph) (depth : option string)
    : list (option string * graph) :=
  match fuel with
  | O => []
  | S fuel' =>
      (depth, g) ::
        (if negb (has_cycles g) then []
         else if (Z.of_nat (vcount g) <=? min_vertices)%Z then []
         else match communities method g with
              | Ok comms =>
                  calls_loop (calls fuel' method) g depth 1 (remove_full (vcount g) comms)
              | Err _ => []
              end)
  end.

End Decomposer.

(** ** Key-regulator selection (in [parse]) *)

(** [sorted(xs, key=key)] on a list: Python's sort is stable, and every
    stable sort gives the same result as this insertion sort, which puts
    each element after the earlier ones of equal key. *)
Fixpoint insert_by (key : nat -> nat) (x : nat) (l : list nat) : list nat :=
  match l with
  | [] => [x]
  | y :: l' => if Nat.ltb (key x) (key y) then x :: y :: l' else y :: insert_by key x l'
  end.

Definition sorted_by (key : nat -> nat) (xs : list nat) : list nat :=
  fold_left (fun acc x => insert_by key x acc) xs [].

(** [l[a:]] for an integer [a]. *)
Definition py_slice_from {A} (a : Z) (l : list A) : list A :=
  let len := Z.of_nat (length l) in
  let start := if (a <? 0)%Z then Z.max 0 (a + len) else Z.min a len in
  skipn (Z.to_nat start) l.

(** [_vertex_ids = sorted(range(len(_degrees)), key=lambda sub: _degrees[sub])[-key_regulator_bin_width:]] *)
Definition key_regulator_ids (g : graph) (w : Z) : list nat :=
  let degs := degrees g in
  py_slice_from (- w) (sorted_by (fun i => nth i degs 0) (seq 0 (length degs))).

(** ** [parse] *)

(** The Python values the arguments of [parse] can take. *)
Inductive pyval :=
  | PyNone
  | PyInt (z : Z)
  | PyStr (s : string)
  | PyOther.

Section Parse.
Context `{IGraphLib}.

(** The part after the choice of method: the recursive call on the root. *)
Definition parse_run (min_vertices : Z) (key_regulators : list string)
    (g : graph) (method : nat) (algo_label : string) (s : cf_state)
    : result (node * cf_state) :=
  find_communities_recursive min_vertices key_regulators (S (vcount g)) method g
    None (set_cf_algo root_init algo_label) s.

(** [parse(subgraph_min_vertices, key_regulator_bin_width, cf_algo)] on an
    object whose graph is [graph], whose [subgraph_min_vertices] is [obj_min]
    and whose dictionaries are [s0].  The result is the final root tree and
    object state (the returned leaf map is [leaf_communities_edgelist]). *)
Definition parse (obj_min : Z) (s0 : cf_state) (graph : option graph)
    (subgraph_min_vertices key_regulator_bin_width cf : pyval)
    : result (node * cf_state) :=
  let min_vertices := match subgraph_min_vertices with
                      | PyInt z => z
                      | _ => obj_min
                      end in
  match graph with
  | None => Err (TypeError ("Either initialize the class with a edgelist file"
                 ++ " or set self.graph explicitly using `.set_graph`."))
  | Some g =>
      match key_regulator_bin_width with
      | PyInt w =>
          let ids := key_regulator_ids g w in
          let kr := map (vname g) ids in
          let s := {| leaf_communities_edgelist := ∅;
                      root_communities_edgelist := root_communities_edgelist s0;
                      communities_subgraph_inclusive := communities_subgraph_inclusive s0;
                      key_reg_trace := fold_left (fun m k => <[k := Some ""]> m) kr ∅ |} in
          match cf with
          | PyStr a =>
              if bool_decide (a = "louvain") then parse_run min_vertices kr g 0 "Louvain" s
              else if bool_decide (a = "leading_eigenvector") then
                parse_run min_vertices kr g 1 "Leading eigenvector" s
              else Err (ValueError ("Invalid community finding algorithm " ++ a ++ "."))
          | _ => parse_run min_vertices kr g 0 "" s
          end
      | _ => Err (TypeError "Key Regulator bin width should be an integer.")
      end
  end%string.

End Parse.

(** ** Auxiliary notions for the statements *)

(** The contract of the partitioner: disjoint, non-empty blocks of vertex
    indices of the graph. *)
Definition is_partition (n : nat) (comms : list (list nat)) : Prop :=
  List.NoDup (concat comms) /\ Forall (fun b => b <> [] /\ Forall (fun x => x < n) b) comms.

(** Errors raised while the decomposition runs (not argument errors). *)
Definition runtime_error (e : py_error) : Prop :=
  match e with TypeError _ | ValueError _ => False | _ => True end.

(** The root tree of a result, with its [cf_algo] label replaced. *)
Definition relabel_root (a : string) (r : result (node * cf_state)) : result (node * cf_state) :=
  match r with
  | Ok (t, s) => Ok (set_cf_algo t a, s)
  | Err e => Err e
  end.

(** The order the stable sort produces on distinct indices: by key, then by
    index. *)
Definition key_lt (key : nat -> nat) (x y : nat) : Prop :=
  key x < key y \/ (key x = key y /\ x < y).

(** The condition under which a call records its edge list in the leaf map. *)
Definition leaf_community_cond (min_vertices : Z) (h : graph) : Prop :=
  has_cycles h = true /\ (Z.of_nat (vcount h) <= min_vertices)%Z /\ 1 < length (edges h).

(** ** Concrete inputs *)

(** A partitioner returning the whole vertex set as one block. *)
Definition lib_whole : IGraphLib := {|
  community_multilevel := fun g => if Nat.eqb (vcount g) 0 then [] else [seq 0 (vcount g)];
  community_leading_eigenvector := fun g => if Nat.eqb (vcount g) 0 then [] else [seq 0 (vcount g)];
  evcent := fun g => repeat 0%Q (vcount g);
  betweenness := fun g => repeat 0%Q (vcount g);
  closeness := fun g => repeat 0%Q (vcount g);
  transitivity_local_undirected := fun g => repeat 0%Q (vcount g) |}.

(** A partitioner splitting the vertex indices in two halves. *)
Definition lib_halves : IGraphLib := {|
  community_multilevel := fun g =>
    let n := vcount g in [seq 0 (n / 2); seq (n / 2) (n - n / 2)];
  community_leading_eigenvector := fun g => [seq 0 (vcount g)];
  evcent := fun g => repeat 1%Q (vcount g);
  betweenness := fun g => repeat 3%Q (vcount g);
  closeness := fun g => repeat (1 # 2)%Q (vcount g);
  transitivity_local_undirected := fun g => repeat 0%Q (vcount g) |}.

Definition s_empty : cf_state :=
  {| leaf_communities_edgelist := ∅; root_communities_edgelist := ∅;
     communities_subgraph_inclusive := ∅; key_reg_trace := ∅ |}.

(** One vertex with a self-loop (the edge list line [a,a]). *)
Definition g_loop : graph := mk_graph ["a"]%string [(0, 0)].
(** The path a - b - c. *)
Definition g_path : graph := mk_graph ["a"; "b"; "c"]%string [(0, 1); (1, 2)].
(** The single edge a - b. *)
Definition g_edge : graph := mk_graph ["a"; "b"]%string [(0, 1)].
(** Two triangles a b c and d e f joined by the edge c - d. *)
Definition g_two_triangles : graph :=
  mk_graph ["a"; "b"; "c"; "d"; "e"; "f"]%string
    [(0, 1); (1, 2); (0, 2); (3, 4); (4, 5); (3, 5); (2, 3)].

Definition props_path : gmap nat (list Q) :=
  match @find_properties lib_halves g_path [1; 0] with Ok o => o | Err _ => ∅ end.

(** The decomposition of two triangles with minimum size 3, the partitioner
    splitting every graph into halves. *)
Definition run_two_triangles : result (node * cf_state) :=
  @find_communities_recursive lib_halves 3 [] 7 0 g_two_triangles None root_init s_empty.

Definition run_two_triangles_tree : node :=
  match run_two_triangles with Ok (t, _) => t | Err _ => root_init end.

Definition run_two_triangles_state : cf_state :=
  match run_two_triangles with Ok (_, s) => s | Err _ => s_empty end.

(** The edge a - b and the isolated vertex c. *)
Definition g_isolated : graph := mk_graph ["a"; "b"; "c"]%string [(0, 1)].

(** [parse] on the two triangles with minimum size 3 and bin width 2. *)
Definition parse_two_triangles : result (node * cf_state) :=
  @parse lib_halves 3 s_empty (Some g_two_triangles) PyNone (PyInt 2) PyNone.

Definition parse_two_triangles_tree : node :=
  match parse_two_triangles with Ok (t, _) => t | Err _ => root_init end.

Definition parse_two_triangles_state : cf_state :=
  match parse_two_triangles with Ok (_, s) => s | Err _ => s_empty end.

(** ** [check_star_topology] *)

(** [_es_count] is taken from [len(graph.vs)], like [_vs_count]; Python
    integers are modelled by [Z]. *)
Definition check_star_topology (g : graph) : bool :=
  let vs_count := Z.of_nat (vcount g) in
  let es_count := Z.of_nat (vcount g) in
  if negb (Z.eqb es_count (vs_count - 1)) then false
  else if Z.eqb vs_count 1 then true
  else
    let central_nodes :=
      map (fun d => if Z.eqb (Z.of_nat d) (vs_count - 1) then 1%Z else 0%Z) (degrees g) in
    if negb (Z.eqb (fold_right Z.add 0%Z central_nodes) 1) then false
    else true.

(** ** Auxiliary notions for the further properties *)

(** The igraph calls return one value per vertex. *)
Definition lib_lengths_ok `{IGraphLib} (g : graph) : Prop :=
  length (evcent g) = vcount g /\ length (betweenness g) = vcount g /\
  length (closeness g) = vcount g /\ length (transitivity_local_undirected g) = vcount g.

(** Every edge of the graph joins two of its vertices. *)
Definition edges_in_range (g : graph) : Prop :=
  forall a b, In (a, b) (edges g) -> a < vcount g /\ b < vcount g.

(** The labels a vertex labelling gives the vertices [0 .. n-1]: the
    connected classes [closes_cycle] has formed so far. *)
Definition label_set (lab : nat -> nat) (n : nat) : gset nat :=
  list_to_set (map lab (seq 0 n)).

(** The updates one call of [find_communities_recursive] makes to the
    object's dictionaries before it recurses, in the code's order: a run
    makes them for its calls (see [calls]) one after the other. *)
Definition call_effect (min_vertices : Z) (key_regulators : list string)
    (s : cf_state) (c : option string * graph) : cf_state :=
  let '(depth, g) := c in
  let s := match depth with
           | Some d => put_inclusive d g s
           | None => s
           end in
  let s := fold_left (fun s p => put_trace (snd p) depth s) (key_reg_vertex key_regulators g) s in
  if negb (has_cycles g) then s
  else if (Z.of_nat (vcount g) <=? min_vertices)%Z then
    let el := edge_names g in
    if Nat.ltb 1 (length el) then put_leaf depth el s else s
  else
    match depth with
    | Some d => put_root ("0_" ++ d)%string (edge_names g) s
    | None => s
    end.

(** A string without the separator ['_']. *)
Fixpoint no_us (s : string) : Prop :=
  match s with
  | EmptyString => True
  | String c s' => c <> "_"%char /\ no_us s'
  end.

(** What may follow a lineage inside a longer one: nothing, or ["_..."]. *)
Definition sep_tail (r : string) : Prop :=
  r = EmptyString \/ exists r', r = String "_" r'.

(** [l] is the lineage of the [j]-th child of the node at [d], or of one of
    that child's descendants. *)
Definition at_or_under (d : option string) (j : nat) (l : option string) : Prop :=
  exists r, l = Some (child_lineage d j ++ r)%string /\ sep_tail r.

(** The number a string of decimal digits denotes. *)
Fixpoint digits_value (s : string) : nat :=
  match s with
  | EmptyString => 0
  | String c s' => (nat_of_ascii c - 48) * 10 ^ String.length s' + digits_value s'
  end.

(** [tree['lineage']] as the code sets it from [depth]. *)
Definition lineage_str (d : option string) : string :=
  match d with None => "0"%string | Some l => l end.

(** The shape of a tree built by the recursion from the node at lineage
    [d] with name [nm]: its lineage and depth fields, its name, and the same
    for its [j]-th child (from 0), at lineage [child_lineage d (j+1)] with
    name [str(j+1)]. *)
Inductive tree_ok : option string -> string -> node -> Prop :=
  | tree_ok_intro d nm t :
      lineage t = Some (lineage_str d) ->
      current_depth t = Some (count_us (lineage_str d) + 1) ->
      name t = Some nm ->
      (forall j c, nth_error (children t) j = Some c ->
         tree_ok (Some (child_lineage d (S j))) (str_of_nat (S j)) c) ->
      tree_ok d nm t.

(** ** [genrate_edgelist] *)

(** The errors the generator can raise: those of [parse], and Python's
    [AttributeError]. *)
Inductive gen_error :=
  | GenPyError (e : py_error)
  | AttributeError (msg : string).

(** [self._graph.vs[0]]: [AttributeError] on [None], [IndexError] on a
    graph without vertices. *)
Definition graph_vs0 (graph : option graph) : sum gen_error nat :=
  match graph with
  | None => inl (AttributeError "'NoneType' object has no attribute 'vs'")
  | Some g => if Nat.eqb (vcount g) 0 then inl (GenPyError IndexError) else inr 0
  end%string.

(** [subgraph.get_edgelist()] where [subgraph] is a value of the leaf
    dictionary, a Python list: lists have no such method. *)
Definition list_get_edgelist (subgraph : list (list string)) : sum gen_error (list (nat * nat)) :=
  inl (AttributeError "'list' object has no attribute 'get_edgelist'").

(** The loop of the generator over the leaf dictionary's items: the items
    it yields, and the error that ends it ([None] when it runs out). *)
Fixpoint gen_loop (graph : option graph) (items : list (option string * list (list string)))
    : list (option string * list (list string)) * option gen_error :=
  match items with
  | [] => ([], None)
  | (order, subgraph) :: rest =>
      match graph_vs0 graph with
      | inl e => ([], Some e)
      | inr _ =>
          match list_get_edgelist subgraph, graph with
          | inl e, _ => ([], Some e)
          | inr el, Some g =>
              let r := gen_loop graph rest in
              ((order, map (fun '(a, b) => [vname g a; vname g b]) el) :: fst r, snd r)
          | inr _, None => ([], Some (AttributeError "'NoneType' object has no attribute 'vs'"))
          end
      end
  end%string.

(** [genrate_edgelist()] on an object whose graph is [graph], whose
    [subgraph_min_vertices] is [obj_min] and whose dictionaries are [s0]:
    [self.parse()] with its default arguments when the leaf dictionary is
    empty, then the loop over the leaf dictionary's items. *)
Definition genrate_edgelist `{IGraphLib} (obj_min : Z) (s0 : cf_state) (graph : option graph)
    : list (option string * list (list string)) * option gen_error :=
  if bool_decide (leaf_communities_edgelist s0 = ∅) then
    match parse obj_min s0 graph PyNone (PyInt 50) PyNone with
    | Err e => ([], Some (GenPyError e))
    | Ok (_, s) => gen_loop graph (map_to_list (leaf_communities_edgelist s))
    end
  else gen_loop graph (map_to_list (leaf_communities_edgelist s0)).

(** ** [__init__]'s output format and [write_leaf_networks] *)




(** The files [write_leaf_networks] writes, by directory under
    [leaf_networks] and file name (the JSON text, the SVG rendering and the
    directories created are not modelled). *)
Inductive fs_event :=
  | WriteJson (file : string)
  | WriteTsv (file : string) (content : string)
  | WriteSvg (file : string) (g : graph).

(** [f"{filename}"] for a key of the leaf dictionary. *)
Definition py_str_key (k : option string) : string :=
  match k with None => "None" | Some s => s end%string.

Definition tab : string := String (ascii_of_nat 9) EmptyString.
Definition newline : string := String (ascii_of_nat 10) EmptyString.

(** The lines [f"{line[0]}\t{line[1]}\n"] of a TSV file. *)
Fixpoint tsv_lines (el : list (list string)) : result string :=
  match el with
  | [] => Ok EmptyString
  | line :: rest =>
      match nth_error line 0, nth_error line 1 with
      | Some a, Some b =>
          let! r := tsv_lines rest in Ok (a ++ tab ++ b ++ newline ++ r)%string
      | _, _ => Err IndexError
      end
  end.

(** A loop over a list whose body may raise. *)
Fixpoint result_map {A B} (f : A -> result B) (l : list A) : result (list B) :=
  match l with
  | [] => Ok []
  | x :: l' => let! y := f x in let! ys := result_map f l' in Ok (y :: ys)
  end.

(** [write_leaf_networks(base_dir, format)] with [format] [None] or a
    string, on an object whose [output_format] is [output_format] and whose
    dictionaries are [s].  The three loops run over the leaf dictionary's
    items. *)
Definition write_leaf_networks (s : cf_state) (output_format : string) (format : option string)
    : result (list fs_event) :=
  let format := match format with None => output_format | Some f => f end in
  let items := map_to_list (leaf_communities_edgelist s) in
  let jsons := map (fun '(k, _) =>
                 WriteJson ("leaf_nodes_json/" ++ py_str_key k ++ ".json")%string) items in
  let! tsvs :=
    if bool_decide (format = "edgelist"%string) then
      result_map (fun '(k, el) =>
        let! c := tsv_lines el in
        Ok (WriteTsv ("leaf_nodes_edgelist/" ++ py_str_key k ++ ".tsv")%string c)) items
    else Ok [] in
  let! svgs :=
    result_map (fun '(k, _) =>
      match k with
      | None => Err KeyError
      | Some k' =>
          match communities_subgraph_inclusive s !! k' with
          | Some h => Ok (WriteSvg ("leaf_nodes_svg_render/" ++ k' ++ ".svg")%string h)
          | None => Err KeyError
          end
      end) items in
  Ok (jsons ++ tsvs ++ svgs).

(** The [method] argument [parse] passes to the recursion for its [cf_algo]
    argument (when it does not raise). *)
Definition cf_method (cf : pyval) : nat :=
  match cf with
  | PyStr a => if bool_decide (a = "leading_eigenvector"%string) then 1 else 0
  | _ => 0
  end.

(** The object's dictionaries when [parse] starts the recursion. *)
Definition parse_start (s0 : cf_state) (kr : list string) : cf_state :=
  {| leaf_communities_edgelist := ∅;
     root_communities_edgelist := root_communities_edgelist s0;
     communities_subgraph_inclusive := communities_subgraph_inclusive s0;
     key_reg_trace := fold_left (fun m k => <[k := Some ""%string]> m) kr ∅ |}.

(** ** [write_subgraphs] *)

(** Python's [a / b] on numbers: [ZeroDivisionError] for a zero divisor. *)
Definition py_div (a b : Q) : result Q :=
  if Qeq_bool b 0 then Err ZeroDivisionError else Ok (a / b)%Q.

(** [sorted(rows, key = lambda x: x[0])]: a stable sort on the first
    component, as an insertion sort that puts an element after the ones with
    an equal key. *)
Fixpoint insert_fst (x : nat * Q) (l : list (nat * Q)) : list (nat * Q) :=
  match l with
  | [] => [x]
  | y :: l' => if Nat.ltb (fst x) (fst y) then x :: y :: l' else y :: insert_fst x l'
  end.

Definition sort_fst (l : list (nat * Q)) : list (nat * Q) :=
  fold_left (fun acc x => insert_fst x acc) l [].

(** The files [write_subgraphs] writes, by directory under [subgraphs]
    and file name.  A CSV file is given by its rows [[degree, value]] (the
    text [f"{x},{y}"] of a float is not modelled); the JSON text and the SVG
    layout are not modelled, the SVG's colours and size are. *)
Inductive sub_event :=
  | SubCsv (file : string) (rows : list (nat * Q))
  | SubTsv (file : string) (content : string)
  | SubJson (file : string)
  | SubSvg (file : string) (g : graph) (colors : list string) (width height : nat).

Definition sub_csv_file (k hd : string) : string :=
  ("prop_plots/" ++ k ++ "-" ++ hd ++ ".csv")%string.

Section Subgraphs.
Context `{IGraphLib}.

(** The six sorted property lists of [_prop_list] for a subgraph of at
    least three vertices, in the order the loop body computes them. *)
Definition subgraph_props (g : graph) : result (list (list (nat * Q))) :=
  let n := vcount g in
  let degs := degrees g in
  let dnorm := (Q_of_nat ((n - 1) * (n - 2)) / 2)%Q in
  let! ev := result_map (fun i => py_div i dnorm) (evcent g) in
  let! bt := result_map (fun i => py_div i dnorm) (betweenness g) in
  let cl := closeness g in
  let! pd := result_map (fun i => py_div (Q_of_nat (py_count degs i)) (Q_of_nat n)) degs in
  let cc := transitivity_local_undirected g in
  let! nc := result_map (fun v =>
                let nb := neighbors g v in
                if Nat.eqb (length nb) 0 then Ok 0%Q
                else py_div (Q_of_nat (sum_nat (map (degree g) nb))) (Q_of_nat (length nb)))
               (seq 0 n) in
  Ok (map (fun vals => sort_fst (combine degs vals)) [ev; bt; cl; pd; cc; nc]).

(** The CSV files of one key of the inclusive dictionary: none below three
    vertices, else one per entry of [_prop_list], named after
    [self._property_headings_list[i]]. *)
Definition subgraph_csvs (k : string) (h : graph) : result (list sub_event) :=
  if Nat.ltb (vcount h) 3 then Ok []
  else
    let! props := subgraph_props h in
    result_map (fun '(i, rows) =>
      let! hd := py_index property_headings i in
      Ok (SubCsv (sub_csv_file k hd) rows)) (combine (seq 0 (length props)) props).

(** [dim if dim > 400 else 90 * _l] with [dim = 30 * _l]. *)
Definition svg_size (l : nat) : nat :=
  let dim := 30 * l in if Nat.ltb 400 dim then dim else 90 * l.

(** [write_subgraphs(base_dir, format)] with [format] [None] or a string,
    on an object whose graph is [graph], whose [self.key_regulators] has the
    keys [key_regulators] (so [parse] has run), whose [output_format] is
    [output_format] and whose dictionaries are [s].  It returns the
    dictionaries after the assignment [self.communities_subgraph_inclusive['0']
    = self._graph] and the files written; the loops run over the items of the
    inclusive dictionary. *)
Definition write_subgraphs (s : cf_state) (graph : graph) (key_regulators : list string)
    (output_format : string) (format : option string) : result (cf_state * list sub_event) :=
  let format := match format with None => output_format | Some f => f end in
  let s := put_inclusive "0" graph s in
  let items := map_to_list (communities_subgraph_inclusive s) in
  let! csvs := result_map (fun '(k, h) => subgraph_csvs k h) items in
  let! tsvs :=
    if bool_decide (format = "edgelist"%string) then
      result_map (fun '(k, h) =>
        let! c := tsv_lines (edge_names h) in
        Ok (SubTsv ("subgraphs_tsv/" ++ k ++ ".tsv")%string c)) items
    else Ok [] in
  let jsons := map (fun '(k, _) => SubJson ("subgraphs_json/" ++ k ++ ".json")%string) items in
  let svgs := map (fun '(k, h) =>
                 SubSvg ("subgraphs_svg_render/" ++ k ++ ".svg")%string h
                   (map (fun i => if bool_decide (vname h i ∈ key_regulators)
                                  then "lightblue"%string else "lightsalmon"%string)
                        (seq 0 (vcount h)))
                   (svg_size (vcount h)) (svg_size (vcount h))) items in
  Ok (s, concat csvs ++ tsvs ++ jsons ++ svgs).

End Subgraphs.

(** [write_subgraphs(base_dir)] after [parse] on the two triangles. *)
(** The key regulators [parse] selects on the two triangles. *)
Definition kr_two_triangles : list string :=
  map (vname g_two_triangles) (key_regulator_ids g_two_triangles 2).

Definition ws_two_triangles : result (cf_state * list sub_event) :=
  @write_subgraphs lib_halves parse_two_triangles_state g_two_triangles kr_two_triangles
    "edgelist" None.

Definition ws_two_triangles_state : cf_state :=
  match ws_two_triangles with Ok (s, _) => s | Err _ => s_empty end.

Definition ws_two_triangles_events : list sub_event :=
  match ws_two_triangles with Ok (_, evs) => evs | Err _ => [] end.

(** * Properties *)

(** ** The property computation *)

Lemma lookup_fold_insert_const {V} (v : V) (l : list nat) (m : gmap nat V) (k : nat) :
  fold_left (fun out i => <[i := v]> out) l m !! k =
  if bool_decide (k ∈ l) then Some v else m !! k.
Proof.
  revert m. induction l as [|x l IH]; intros m; cbn [fold_left].
  - case_bool_decide; [set_solver | done].
  - rewrite IH. rewrite lookup_insert.
    repeat first [case_bool_decide | case_decide]; subst; try done; set_solver.
Qed.

Lemma nth_error_degrees (g : graph) (v dv : nat) :
  nth_error (degrees g) v = Some dv -> v < vcount g /\ dv = degree g v.
Proof.
  unfold degrees. rewrite nth_error_map, nth_error_seq.
  destruct (Nat.ltb_spec v (vcount g)); simpl; [|discriminate].
  intros Hd. injection Hd as <-. split; [lia | reflexivity].
Qed.

Lemma py_count_degrees (g : graph) (x : nat) :
  py_count (degrees g) x = length (List.filter (fun u => Nat.eqb (degree g u) x) (seq 0 (vcount g))).
Proof.
  unfold py_count, degrees. generalize (seq 0 (vcount g)) as l.
  induction l as [|u l IH]; cbn [map List.filter]; [done|].
  rewrite (Nat.eqb_sym x). destruct (Nat.eqb (degree g u) x); cbn [length]; auto.
Qed.

Section PropertyProofs.
Context `{IGraphLib}.

Lemma vertex_properties_ok (g : graph) (n : nat) (dnorm : Q) (v : nat) (p : list Q) :
  vertex_properties g n dnorm v = Ok p ->
  v < vcount g /\
  exists e b c cc nc,
    nth_error (evcent g) v = Some e /\ nth_error (betweenness g) v = Some b /\
    nth_error (closeness g) v = Some c /\
    nth_error (transitivity_local_undirected g) v = Some cc /\
    p = [e / dnorm; b / dnorm; c;
         Q_of_nat (length (List.filter (fun u => Nat.eqb (degree g u) (degree g v))
                                  (seq 0 (vcount g)))) / Q_of_nat (vcount g);
         cc; nc; Q_of_nat (degree g v)]%Q.
Proof.
  unfold vertex_properties, py_index, bind.
  destruct (nth_error (evcent g) v) as [e|]; [|discriminate].
  destruct (nth_error (betweenness g) v) as [b|]; [|discriminate].
  destruct (nth_error (closeness g) v) as [c|]; [|discriminate].
  destruct (nth_error (degrees g) v) as [dv|] eqn:Ed; [|discriminate].
  destruct (nth_error (transitivity_local_undirected g) v) as [cc|]; [|discriminate].
  apply nth_error_degrees in Ed as [Hv ->].
  destruct (Nat.eqb _ 0); [discriminate|].
  intros Hp. injection Hp as <-. split; [exact Hv|].
  do 5 eexists. repeat split.
  rewrite py_count_degrees. unfold degrees. rewrite length_map, length_seq. reflexivity.
Qed.

Lemma props_fold_err g n dnorm l e :
  fold_left (props_step g n dnorm) l (Err e) = Err e.
Proof. induction l; simpl; auto. Qed.

Lemma props_fold_other g n dnorm l m out k :
  fold_left (props_step g n dnorm) l (Ok m) = Ok out -> k ∉ l -> out !! k = m !! k.
Proof.
  revert m. induction l as [|x l IH]; intros m; cbn [fold_left].
  - intros Ho _. by injection Ho as <-.
  - unfold props_step at 2. cbn [bind].
    destruct (vertex_properties g n dnorm x); cbn [bind]; [|rewrite props_fold_err; discriminate].
    intros Ho Hk. rewrite (IH _ Ho) by set_solver.
    rewrite lookup_insert_ne; [done|]. set_solver.
Qed.

Lemma props_fold_ok g n dnorm l m out :
  fold_left (props_step g n dnorm) l (Ok m) = Ok out ->
  forall v, v ∈ l -> exists p, vertex_properties g n dnorm v = Ok p /\ out !! v = Some p.
Proof.
  revert m. induction l as [|x l IH]; intros m; cbn [fold_left].
  - intros _ v Hv. by apply not_elem_of_nil in Hv.
  - unfold props_step at 2. cbn [bind].
    destruct (vertex_properties g n dnorm x) as [p|] eqn:Ep; cbn [bind];
      [|rewrite props_fold_err; discriminate].
    intros Ho v Hv.
    destruct (decide (v ∈ l)) as [Hin|Hnin]; [by apply (IH _ Ho)|].
    assert (v = x) as -> by set_solver.
    exists p. split; [done|].
    rewrite (props_fold_other _ _ _ _ _ _ _ Ho Hnin). apply lookup_insert_eq.
Qed.

End PropertyProofs.

(** C6: below three vertices, every requested vertex gets the sentinel
    tuple (-1,...,-1) and no error is raised. *)
Theorem find_properties_small_sentinel `{IGraphLib} (g : graph) (vertex_indices : list nat) :
  vcount g < 3 ->
  exists out, find_properties g vertex_indices = Ok out /\
    forall i, i ∈ vertex_indices -> out !! i = Some sentinel.
Proof.
  intros Hn. unfold find_properties.
  destruct (Nat.ltb_spec (vcount g) 3); [|lia].
  eexists. split; [reflexivity|].
  intros i Hi. rewrite lookup_fold_insert_const. by rewrite bool_decide_true.
Qed.

(** C7: from three vertices on, a returned tuple holds the raw eigenvector
    and betweenness centralities divided by D = (n-1)(n-2)/2, the raw
    closeness, and the number of vertices of equal degree (the vertex
    included) divided by n. *)
Theorem find_properties_normalised `{IGraphLib} (g : graph) (vertex_indices : list nat)
    (out : gmap nat (list Q)) (v : nat) :
  3 <= vcount g ->
  find_properties g vertex_indices = Ok out ->
  v ∈ vertex_indices ->
  let n := vcount g in
  let D := (Q_of_nat ((n - 1) * (n - 2)) / 2)%Q in
  exists e b c cc nc,
    nth_error (evcent g) v = Some e /\ nth_error (betweenness g) v = Some b /\
    nth_error (closeness g) v = Some c /\
    nth_error (transitivity_local_undirected g) v = Some cc /\
    out !! v = Some [e / D; b / D; c;
                     Q_of_nat (length (List.filter (fun u => Nat.eqb (degree g u) (degree g v))
                                              (seq 0 n))) / Q_of_nat n;
                     cc; nc; Q_of_nat (degree g v)]%Q.
Proof.
  intros Hn Hout Hv n D. unfold find_properties in Hout.
  destruct (Nat.ltb_spec (vcount g) 3); [lia|].
  destruct (props_fold_ok _ _ _ _ _ _ Hout v Hv) as (p & Hp & Hl).
  apply vertex_properties_ok in Hp as (_ & e & b & c & cc & nc & He & Hb & Hc & Hcc & ->).
  exists e, b, c, cc, nc. repeat split; assumption.
Qed.

(** ** The full-block filter and the size of the children *)

Lemma remove_full_loop_keep (fuel n i : nat) (l : list (list nat)) :
  Forall (fun b => length b <> n) l -> remove_full_loop fuel n i l = l.
Proof.
  intros Hl. revert i. induction fuel as [|f IH]; intros i; cbn [remove_full_loop]; [done|].
  destruct (nth_error l i) as [x|] eqn:Ex; [|done].
  apply nth_error_In in Ex. rewrite List.Forall_forall in Hl.
  apply Hl in Ex. destruct (Nat.eqb_spec (length x) n); [done|]. apply IH.
Qed.

Lemma nodup_app_disjoint {A} (l1 l2 : list A) (x : A) :
  List.NoDup (l1 ++ l2) -> In x l1 -> In x l2 -> False.
Proof.
  induction l1 as [|a l1 IH]; intros Hnd H1 H2; [done|].
  inversion Hnd as [|? ? Hnot Hnd']; subst.
  destruct H1 as [<- | H1].
  - apply Hnot, in_or_app. right. done.
  - exact (IH Hnd' H1 H2).
Qed.

(** A duplicate-free block of [n] indices below [n] holds every index. *)
Lemma full_block_covers (n : nat) (b : list nat) :
  List.NoDup b -> Forall (fun x => x < n) b -> length b = n -> forall y, y < n -> In y b.
Proof.
  intros Hnd Hlt Hlen y Hy.
  assert (incl (seq 0 n) b) as Hinc.
  { apply NoDup_length_incl; [done | rewrite length_seq; lia |].
    intros x Hx. apply in_seq. rewrite List.Forall_forall in Hlt. apply Hlt in Hx. lia. }
  apply Hinc, in_seq. lia.
Qed.

Lemma partition_block_length (n : nat) (l : list (list nat)) (b : list nat) :
  is_partition n l -> In b l -> length b <= n.
Proof.
  intros [Hnd Hf] Hb.
  apply in_split in Hb as (l1 & l2 & ->).
  rewrite concat_app in Hnd. cbn [concat] in Hnd.
  apply NoDup_app_remove_l, NoDup_app_remove_r in Hnd.
  rewrite Forall_app in Hf. destruct Hf as [_ Hf]. inversion Hf as [|? ? [_ Hlt] _]; subst.
  rewrite <- (length_seq n 0). apply NoDup_incl_length; [done|].
  intros x Hx. apply in_seq. rewrite List.Forall_forall in Hlt. apply Hlt in Hx. lia.
Qed.

(** A partition with a block of all [n] vertices has no other block. *)
Lemma partition_full_block (n : nat) (l : list (list nat)) (b : list nat) :
  is_partition n l -> In b l -> length b = n -> l = [b].
Proof.
  intros [Hnd Hf] Hb Hlen.
  apply in_split in Hb as (l1 & l2 & ->).
  rewrite concat_app in Hnd. cbn [concat] in Hnd.
  rewrite Forall_app in Hf. destruct Hf as [Hf1 Hf2].
  inversion Hf2 as [|? ? [_ Hlt] Hf2']; subst.
  pose proof (NoDup_app_remove_l _ _ Hnd) as Hnd'.
  assert (List.NoDup b) as Hb by exact (NoDup_app_remove_r _ _ Hnd').
  pose proof (full_block_covers _ _ Hb Hlt eq_refl) as Hcov.
  (* a vertex of another block would be in [b] as well *)
  assert (forall c, In c (l1 ++ l2) -> False) as Hnone.
  { intros c Hc. apply in_app_or in Hc.
    assert (c <> [] /\ Forall (fun x => x < length b) c) as [Hne Hc'].
    { destruct Hc as [Hc | Hc]; [rewrite List.Forall_forall in Hf1 | rewrite List.Forall_forall in Hf2'];
        auto. }
    destruct c as [|x c]; [done|]. inversion Hc'; subst.
    destruct Hc as [Hc | Hc].
    - apply (nodup_app_disjoint _ _ x Hnd).
      + apply in_concat. exists (x :: c). split; [done | left; done].
      + apply in_or_app. left. apply Hcov. done.
    - apply (nodup_app_disjoint _ _ x Hnd').
      + apply Hcov. done.
      + apply in_concat. exists (x :: c). split; [done | left; done]. }
  destruct l1 as [|c1 l1]; [|exfalso; apply (Hnone c1); left; done].
  destruct l2 as [|c2 l2]; [done|].
  exfalso. apply (Hnone c2). simpl. left. done.
Qed.

(** Under the partitioner's contract, the loop removes exactly the blocks of
    full size. *)
Lemma remove_full_filter (n : nat) (l : list (list nat)) :
  is_partition n l -> remove_full n l = List.filter (fun b => negb (Nat.eqb (length b) n)) l.
Proof.
  intros Hp.
  destruct (existsb (fun b => Nat.eqb (length b) n) l) eqn:Ex.
  - apply existsb_exists in Ex as (b & Hb & Hlen). apply Nat.eqb_eq in Hlen.
    rewrite (partition_full_block _ _ _ Hp Hb Hlen).
    unfold remove_full. cbn. rewrite Hlen, Nat.eqb_refl. cbn.
    rewrite bool_decide_true by done. done.
  - assert (Forall (fun b => length b <> n) l) as Hall.
    { rewrite List.Forall_forall. intros b Hb Hlen.
      assert (existsb (fun b => Nat.eqb (length b) n) l = true) as Ht
        by (apply existsb_exists; exists b; split; [done | apply Nat.eqb_eq; done]).
      congruence. }
    unfold remove_full. rewrite remove_full_loop_keep by done.
    symmetry. apply forallb_filter_id. apply forallb_forall.
    intros b Hb. rewrite List.Forall_forall in Hall. apply Hall in Hb.
    apply Nat.eqb_neq in Hb. rewrite Hb. done.
Qed.

Lemma vcount_induced_le (g : graph) (b : list nat) : vcount (induced g b) <= length b.
Proof.
  unfold vcount, induced. cbn [names]. rewrite length_map.
  apply NoDup_incl_length.
  - apply List.NoDup_filter, seq_NoDup.
  - intros x Hx. apply filter_In in Hx as [_ Hm].
    unfold memb in Hm. apply existsb_exists in Hm as (y & Hy & Hxy).
    apply Nat.eqb_eq in Hxy. subst. done.
Qed.

Lemma remove_full_smaller (g : graph) (l : list (list nat)) (b : list nat) :
  is_partition (vcount g) l -> In b (remove_full (vcount g) l) ->
  vcount (induced g b) < vcount g.
Proof.
  intros Hp Hb. rewrite (remove_full_filter _ _ Hp) in Hb.
  apply filter_In in Hb as [Hb Hne].
  pose proof (partition_block_length _ _ _ Hp Hb).
  pose proof (vcount_induced_le g b).
  destruct (Nat.eqb_spec (length b) (vcount g)); [done|]. lia.
Qed.

(** ** Errors of the recursion *)

Section RunProofs.
Context `{IGraphLib}.
Variable min_vertices : Z.
Variable key_regulators : list string.

Lemma vertex_properties_err g n dnorm v e :
  vertex_properties g n dnorm v = Err e -> e = IndexError \/ e = ZeroDivisionError.
Proof.
  unfold vertex_properties, py_index.
  repeat match goal with
  | |- context [match ?x with Some _ => _ | None => _ end] =>
      destruct x; cbn [bind]; [|intros [= <-]; left; done]
  end.
  destruct (Nat.eqb _ 0); cbn [bind]; [intros [= <-]; right; done | discriminate].
Qed.

Lemma find_properties_err g idx e :
  find_properties g idx = Err e -> e = IndexError \/ e = ZeroDivisionError.
Proof.
  unfold find_properties. destruct (Nat.ltb _ 3); [discriminate|].
  change (fold_left (props_step g (vcount g) (Q_of_nat ((vcount g - 1) * (vcount g - 2)) / 2)%Q)
            idx (Ok ∅) = Err e -> e = IndexError \/ e = ZeroDivisionError).
  assert (forall e', @Ok (gmap nat (list Q)) ∅ = Err e' -> e' = IndexError \/ e' = ZeroDivisionError)
    as Hacc by discriminate.
  revert Hacc. generalize (@Ok (gmap nat (list Q)) ∅) as acc.
  induction idx as [|x idx IH]; intros acc Hacc; cbn [fold_left].
  - intros ->. by apply Hacc.
  - apply IH. intros e' He'.
    destruct acc as [m|e'']; cbn [props_step bind] in He'.
    + destruct (vertex_properties _ _ _ x) as [p|e3] eqn:Ev; cbn [bind] in He'; [discriminate|].
      injection He' as <-. by eapply vertex_properties_err.
    + apply Hacc. congruence.
Qed.

Lemma build_key_regs_err props krv e :
  build_key_regs props krv = Err e -> e = KeyError.
Proof.
  unfold build_key_regs.
  assert (forall e', @Ok (gmap string (list (string * Q))) ∅ = Err e' -> e' = KeyError)
    as Hacc by discriminate.
  revert Hacc. generalize (@Ok (gmap string (list (string * Q))) ∅) as acc.
  induction krv as [|[vid nm] krv IH]; intros acc Hacc; cbn [fold_left].
  - intros ->. by apply Hacc.
  - apply IH. intros e' He'.
    destruct acc as [l|e'']; cbn [bind] in He'.
    + destruct (props !! vid); [discriminate | congruence].
    + apply Hacc. congruence.
Qed.

Lemma communities_err m g e : communities m g = Err e -> e = UnboundLocalError.
Proof.
  unfold communities. destruct (Nat.eqb m 1); [discriminate|].
  destruct (Nat.eqb m 0); [discriminate | congruence].
Qed.

Lemma children_loop_err (P : py_error -> Prop)
    (recurse : graph -> option string -> node -> cf_state -> result (node * cf_state))
    g d i cs t s e :
  (forall cv, In cv cs -> forall d' t' s' e', recurse (induced g cv) d' t' s' = Err e' -> P e') ->
  children_loop recurse g d i cs t s = Err e -> P e.
Proof.
  revert i t s. induction cs as [|cv cs IH]; intros i t s Hrec; cbn [children_loop]; [discriminate|].
  destruct (recurse (induced g cv) _ child_init s) as [r|e'] eqn:Er; cbn [bind].
  - apply IH. intros cv' Hcv'. apply Hrec. right. done.
  - intros [= <-]. eapply Hrec; [left; done | exact Er].
Qed.

Lemma fcr_runtime_error fuel m g d t s e :
  find_communities_recursive min_vertices key_regulators fuel m g d t s = Err e ->
  runtime_error e.
Proof.
  revert m g d t s e. induction fuel as [|f IH]; intros m g d t s e;
    cbn [find_communities_recursive]; [intros [= <-]; exact I|].
  destruct (find_properties g _) as [props|e'] eqn:Ep; cbn [bind];
    [|intros [= <-]; destruct (find_properties_err _ _ _ Ep) as [-> | ->]; exact I].
  destruct (build_key_regs _ _) as [l|e'] eqn:Eb; cbn [bind];
    [|intros [= <-]; rewrite (build_key_regs_err _ _ _ Eb); exact I].
  destruct (negb (has_cycles g)); [discriminate|].
  destruct (_ <=? _)%Z; [destruct (Nat.ltb 1 _); discriminate|].
  destruct (communities m g) as [comms|e'] eqn:Ec; cbn [bind];
    [|intros [= <-]; rewrite (communities_err _ _ _ Ec); exact I].
  apply children_loop_err. intros. eapply IH. eassumption.
Qed.

Lemma communities_partition m g comms :
  (forall g, is_partition (vcount g) (community_multilevel g) /\
             is_partition (vcount g) (community_leading_eigenvector g)) ->
  communities m g = Ok comms -> is_partition (vcount g) comms.
Proof.
  intros Hpart. unfold communities.
  destruct (Nat.eqb m 1); [intros [= <-]; apply Hpart|].
  destruct (Nat.eqb m 0); [intros [= <-]; apply Hpart | discriminate].
Qed.

Lemma fcr_no_out_of_fuel fuel m g d t s e :
  (forall g, is_partition (vcount g) (community_multilevel g) /\
             is_partition (vcount g) (community_leading_eigenvector g)) ->
  vcount g < fuel ->
  find_communities_recursive min_vertices key_regulators fuel m g d t s = Err e ->
  e <> OutOfFuel.
Proof.
  intros Hpart. revert m g d t s e.
  induction fuel as [|f IH]; intros m g d t s e Hlt; [lia|].
  cbn [find_communities_recursive].
  destruct (find_properties g _) as [props|e'] eqn:Ep; cbn [bind];
    [|intros [= <-]; destruct (find_properties_err _ _ _ Ep) as [-> | ->]; discriminate].
  destruct (build_key_regs _ _) as [l|e'] eqn:Eb; cbn [bind];
    [|intros [= <-]; rewrite (build_key_regs_err _ _ _ Eb); discriminate].
  destruct (negb (has_cycles g)); [discriminate|].
  destruct (_ <=? _)%Z; [destruct (Nat.ltb 1 _); discriminate|].
  destruct (communities m g) as [comms|e'] eqn:Ec; cbn [bind];
    [|intros [= <-]; rewrite (communities_err _ _ _ Ec); discriminate].
  pose proof (communities_partition _ _ _ Hpart Ec) as Hp.
  apply (children_loop_err (fun e => e <> OutOfFuel)). intros cv Hcv d' t' s' e' He'.
  pose proof (remove_full_smaller _ _ _ Hp Hcv).
  eapply IH; [|exact He']. lia.
Qed.

End RunProofs.

(** C4: under the partitioner's contract (disjoint non-empty blocks of the
    graph's vertices), the loop over the communities discards exactly the
    blocks whose size is the graph's vertex count, every child graph has
    fewer vertices than its parent, the recursion stops within (vertex count
    + 1) levels, and [parse], which allows that many, never diverges. *)
Theorem decomposition_terminates `{IGraphLib}
    (Hpart : forall g, is_partition (vcount g) (community_multilevel g) /\
                       is_partition (vcount g) (community_leading_eigenvector g)) :
  (forall m g comms, communities m g = Ok comms ->
     remove_full (vcount g) comms =
       List.filter (fun b => negb (Nat.eqb (length b) (vcount g))) comms /\
     (forall b, In b (remove_full (vcount g) comms) -> vcount (induced g b) < vcount g)) /\
  (forall min_vertices key_regulators fuel m g d t s,
     vcount g < fuel ->
     find_communities_recursive min_vertices key_regulators fuel m g d t s <> Err OutOfFuel) /\
  (forall obj_min s0 g minv w cf, parse obj_min s0 (Some g) minv w cf <> Err OutOfFuel).
Proof.
  split; [|split].
  - intros m g comms Hc. pose proof (communities_partition _ _ _ Hpart Hc) as Hp.
    split; [by apply remove_full_filter|].
    intros b Hb. exact (remove_full_smaller _ _ _ Hp Hb).
  - intros min kr fuel m g d t s Hlt He.
    exact (fcr_no_out_of_fuel _ _ _ _ _ _ _ _ _ Hpart Hlt He eq_refl).
  - intros obj_min s0 g minv w cf. unfold parse.
    destruct w; try discriminate.
    assert (forall mv kr m a s, parse_run mv kr g m a s <> Err OutOfFuel) as Hrun.
    { intros mv kr m a s He. unfold parse_run in He.
      refine (fcr_no_out_of_fuel _ _ _ _ _ _ _ _ _ Hpart _ He eq_refl). lia. }
    destruct cf; try apply Hrun.
    repeat case_bool_decide; try apply Hrun. discriminate.
Qed.

(** ** Key-regulator selection *)

Lemma key_lt_trans key x y z : key_lt key x y -> key_lt key y z -> key_lt key x z.
Proof. unfold key_lt. lia. Qed.

Lemma insert_by_perm key x l : Permutation (insert_by key x l) (x :: l).
Proof.
  induction l as [|y l IH]; cbn [insert_by]; [done|].
  destruct (Nat.ltb _ _); [done|].
  rewrite IH. apply perm_swap.
Qed.

Lemma insert_by_sorted key x l :
  StronglySorted (key_lt key) l -> (forall y, In y l -> y < x) ->
  StronglySorted (key_lt key) (insert_by key x l).
Proof.
  induction l as [|y l IH]; intros Hs Hlt; cbn [insert_by].
  - repeat constructor.
  - inversion Hs as [|? ? Hs' Hy]; subst.
    destruct (Nat.ltb_spec (key x) (key y)).
    + constructor; [done|]. constructor; [left; done|].
      eapply List.Forall_impl; [|exact Hy]. intros z Hz. eapply key_lt_trans; [|exact Hz]. left; done.
    + constructor; [apply IH; [done | intros z Hz; apply Hlt; right; done]|].
      eapply Permutation_Forall; [symmetry; apply insert_by_perm|].
      constructor; [|done].
      assert (y < x) by (apply Hlt; left; done). unfold key_lt. lia.
Qed.

Lemma sorted_by_spec key xs acc :
  StronglySorted (key_lt key) acc -> StronglySorted lt xs ->
  (forall y x, In y acc -> In x xs -> y < x) ->
  StronglySorted (key_lt key) (fold_left (fun acc x => insert_by key x acc) xs acc) /\
  Permutation (fold_left (fun acc x => insert_by key x acc) xs acc) (acc ++ xs).
Proof.
  revert acc. induction xs as [|x xs IH]; intros acc Hacc Hxs Hlt; cbn [fold_left].
  - rewrite app_nil_r. done.
  - inversion Hxs as [|? ? Hxs' Hx]; subst.
    destruct (IH (insert_by key x acc)) as [Hs Hp].
    + apply insert_by_sorted; [done|]. intros y Hy. apply Hlt; [done | left; done].
    + done.
    + intros y z Hy Hz. apply (Permutation_in _ (insert_by_perm key x acc)) in Hy.
      destruct Hy as [<- | Hy].
      * rewrite List.Forall_forall in Hx. apply Hx. done.
      * apply Hlt; [done | right; done].
    + split; [done|]. rewrite Hp, insert_by_perm. apply Permutation_middle.
Qed.

Lemma seq_strongly_sorted a n : StronglySorted lt (seq a n).
Proof.
  revert a. induction n as [|n IH]; intros a; cbn [seq]; constructor; [apply IH|].
  apply List.Forall_forall. intros x Hx. apply in_seq in Hx. lia.
Qed.

Lemma strongly_sorted_app_cross {A} (R : A -> A -> Prop) l1 l2 x y :
  StronglySorted R (l1 ++ l2) -> In x l1 -> In y l2 -> R x y.
Proof.
  induction l1 as [|z l1 IH]; intros Hs Hx Hy; [done|].
  inversion Hs as [|? ? Hs' Hz]; subst.
  destruct Hx as [<- | Hx]; [|exact (IH Hs' Hx Hy)].
  rewrite List.Forall_forall in Hz. apply Hz, in_or_app. right. done.
Qed.

Lemma py_slice_from_neg {A} (w : Z) (l : list A) :
  (0 < w)%Z ->
  py_slice_from (- w) l = skipn (length l - Nat.min (Z.to_nat w) (length l)) l.
Proof.
  intros Hw. unfold py_slice_from.
  destruct (Z.ltb_spec (- w) 0); [|lia].
  f_equal. lia.
Qed.

Lemma nth_degrees (g : graph) (i : nat) : i < vcount g -> nth i (degrees g) 0 = degree g i.
Proof.
  intros Hi. unfold degrees.
  rewrite (nth_indep _ 0 (degree g 0)) by (rewrite length_map, length_seq; done).
  rewrite map_nth, seq_nth by done. done.
Qed.

Lemma in_skipn_in {A} (k : nat) (l : list A) (x : A) : In x (skipn k l) -> In x l.
Proof. intros Hx. rewrite <- (firstn_skipn k l). apply in_or_app. right. done. Qed.

Lemma in_firstn_in {A} (k : nat) (l : list A) (x : A) : In x (firstn k l) -> In x l.
Proof. intros Hx. rewrite <- (firstn_skipn k l). apply in_or_app. left. done. Qed.

(** C5 (as corrected): for a positive bin width [w], the selection holds
    min(w, n) distinct vertices of the n-vertex graph; an unselected vertex
    has a smaller degree than every selected one, or the same degree and a
    smaller index.  When w >= n every vertex is selected. *)
Theorem key_regulator_ids_top (g : graph) (w : Z) :
  (0 < w)%Z ->
  let ids := key_regulator_ids g w in
  length ids = Nat.min (Z.to_nat w) (vcount g) /\
  List.NoDup ids /\
  (forall v, In v ids -> v < vcount g) /\
  (forall u v, u < vcount g -> ~ In u ids -> In v ids ->
     degree g u < degree g v \/ (degree g u = degree g v /\ u < v)).
Proof.
  intros Hw ids. subst ids. unfold key_regulator_ids.
  assert (length (degrees g) = vcount g) as Hlen
    by (unfold degrees; rewrite length_map, length_seq; done).
  rewrite Hlen.
  set (key := fun i => nth i (degrees g) 0).
  destruct (sorted_by_spec key (seq 0 (vcount g)) [])
    as [Hs Hp]; [constructor | apply seq_strongly_sorted | done |].
  cbn [app] in Hp. fold (sorted_by key (seq 0 (vcount g))) in Hs, Hp.
  set (sorted := sorted_by key (seq 0 (vcount g))) in *.
  rewrite py_slice_from_neg by done.
  assert (length sorted = vcount g) as Hls
    by (rewrite (Permutation_length Hp), length_seq; done).
  rewrite Hls.
  set (k := vcount g - Nat.min (Z.to_nat w) (vcount g)).
  assert (List.NoDup sorted) as Hnd
    by (eapply Permutation_NoDup; [symmetry; exact Hp | apply seq_NoDup]).
  assert (forall v, In v sorted -> v < vcount g) as Hrange.
  { intros v Hv. apply (Permutation_in _ Hp), in_seq in Hv. lia. }
  pose proof (firstn_skipn k sorted) as Hsplit.
  split; [|split; [|split]].
  - rewrite length_skipn, Hls. lia.
  - rewrite <- Hsplit in Hnd. exact (NoDup_app_remove_l _ _ Hnd).
  - intros v Hv. apply Hrange. exact (in_skipn_in _ _ _ Hv).
  - intros u v Hu Hnu Hv.
    assert (In u (firstn k sorted)) as Hu'.
    { assert (In u sorted) as Hin
        by (apply (Permutation_in _ (Permutation_sym Hp)), in_seq; lia).
      rewrite <- Hsplit in Hin. apply in_app_or in Hin as [Hin | Hin]; [done | contradiction]. }
    rewrite <- Hsplit in Hs.
    pose proof (strongly_sorted_app_cross _ _ _ _ _ Hs Hu' Hv) as Hkl.
    unfold key_lt, key in Hkl.
    rewrite !nth_degrees in Hkl; [exact Hkl | |]; apply Hrange.
    + exact (in_skipn_in _ _ _ Hv).
    + exact (in_firstn_in _ _ _ Hu').
Qed.

(** ** Argument handling of [parse] *)

Section ParseProofs.
Context `{IGraphLib}.

Lemma parse_run_runtime_error mv kr g m a s e :
  parse_run mv kr g m a s = Err e -> runtime_error e.
Proof. unfold parse_run. apply fcr_runtime_error. Qed.

Lemma children_loop_relabel recurse g d i cs t s a :
  children_loop recurse g d i cs (set_cf_algo t a) s =
  relabel_root a (children_loop recurse g d i cs t s).
Proof.
  revert i t s. induction cs as [|cv cs IH]; intros i t s; cbn [children_loop]; [done|].
  destruct (recurse _ _ child_init s) as [r|]; cbn [bind]; [|done].
  change (add_child (set_cf_algo t a) r.1) with (set_cf_algo (add_child t r.1) a).
  apply IH.
Qed.

(** The [cf_algo] label of the root tree is only carried along. *)
Lemma fcr_relabel mv kr fuel m g d t s a :
  find_communities_recursive mv kr fuel m g d (set_cf_algo t a) s =
  relabel_root a (find_communities_recursive mv kr fuel m g d t s).
Proof.
  destruct fuel as [|f]; cbn [find_communities_recursive]; [done|].
  destruct (find_properties g _); cbn [bind]; [|done].
  destruct (build_key_regs _ _); cbn [bind]; [|done].
  destruct (negb (has_cycles g)); [done|].
  destruct (_ <=? _)%Z; [destruct (Nat.ltb 1 _); done|].
  destruct (communities m g); cbn [bind]; [|done].
  rewrite <- children_loop_relabel. reflexivity.
Qed.

Lemma parse_run_relabel mv kr g m a b s :
  parse_run mv kr g m b s = relabel_root b (parse_run mv kr g m a s).
Proof.
  unfold parse_run. rewrite <- fcr_relabel. done.
Qed.

End ParseProofs.

(** C8 (as corrected): with a graph set, [parse] raises a [TypeError]
    exactly when the bin width is not an int; any int, zero and negative
    ones included, is accepted.  A minimum size that is not an int is
    ignored: the object's stored value is used, as if it had been passed. *)
Theorem parse_argument_checks `{IGraphLib} (obj_min : Z) (s0 : cf_state) (g : graph)
    (minv w cf : pyval) :
  ((exists msg, parse obj_min s0 (Some g) minv w cf = Err (TypeError msg)) <->
   (forall z, w <> PyInt z)) /\
  ((forall z, minv <> PyInt z) ->
   parse obj_min s0 (Some g) minv w cf = parse obj_min s0 (Some g) (PyInt obj_min) w cf).
Proof.
  split.
  - split.
    + intros [msg Hmsg] z ->. revert Hmsg. unfold parse.
      assert (forall mv kr m a s, parse_run mv kr g m a s <> Err (TypeError msg)) as Hrun.
      { intros mv kr m a s He. exact (parse_run_runtime_error _ _ _ _ _ _ _ He). }
      destruct cf; try apply Hrun.
      repeat case_bool_decide; try apply Hrun. discriminate.
    + intros Hw. unfold parse.
      destruct w; try (eexists; reflexivity). exfalso. exact (Hw z eq_refl).
  - intros Hm. unfold parse. destruct minv; try reflexivity. exfalso. exact (Hm z eq_refl).
Qed.

(** C10: an algorithm selector that is not a string never raises the
    invalid-configuration error and runs the Louvain method (the same run
    as ["louvain"], the root's [cf_algo] label apart); a string other than
    the two known names raises [ValueError] naming it, and only such a
    string does. *)
Theorem parse_algorithm_selector `{IGraphLib} (obj_min : Z) (s0 : cf_state) (g : graph)
    (minv : pyval) :
  (forall w cf, (forall a, cf <> PyStr a) ->
     (forall msg, parse obj_min s0 (Some g) minv w cf <> Err (ValueError msg)) /\
     relabel_root "Louvain" (parse obj_min s0 (Some g) minv w cf) =
       parse obj_min s0 (Some g) minv w (PyStr "louvain")) /\
  (forall z a, a <> "louvain" -> a <> "leading_eigenvector" ->
     parse obj_min s0 (Some g) minv (PyInt z) (PyStr a) =
       Err (ValueError ("Invalid community finding algorithm " ++ a ++ "."))) /\
  (forall w a msg, parse obj_min s0 (Some g) minv w (PyStr a) = Err (ValueError msg) ->
     a <> "louvain" /\ a <> "leading_eigenvector")%string.
Proof.
  split; [|split].
  - intros w cf Hcf. unfold parse.
    destruct w; try (split; [discriminate | reflexivity]).
    destruct cf; try (exfalso; eapply Hcf; reflexivity).
    all: split; [intros msg He; apply parse_run_runtime_error in He; exact He|].
    all: rewrite bool_decide_true by done; symmetry; apply parse_run_relabel.
  - intros z a Ha1 Ha2. unfold parse.
    rewrite !bool_decide_false by done. reflexivity.
  - intros w a msg. unfold parse.
    destruct w; try discriminate.
    case_bool_decide; [intros He; apply parse_run_runtime_error in He; done|].
    case_bool_decide; [intros He; apply parse_run_runtime_error in He; done|].
    intros _. done.
Qed.

(** ** The leaf map *)

Section LeafMapProofs.
Context `{IGraphLib}.
Variable min_vertices : Z.
Variable key_regulators : list string.

Lemma trace_fold_leaf (l : list (nat * string)) (d : option string) (s : cf_state) :
  leaf_communities_edgelist (fold_left (fun s p => put_trace (snd p) d s) l s) =
  leaf_communities_edgelist s.
Proof. revert s. induction l as [|p l IH]; intros s; cbn [fold_left]; [done|]. rewrite IH. done. Qed.

Lemma length_edge_names (g : graph) : length (edge_names g) = length (edges g).
Proof. unfold edge_names. apply length_map. Qed.

Lemma children_loop_leaf
    (recurse : graph -> option string -> node -> cf_state -> result (node * cf_state))
    (crec : graph -> option string -> list (option string * graph))
    g d i cs t s t' s' :
  (forall cv, In cv cs -> forall d0 t0 s0 t1 s1,
     recurse (induced g cv) d0 t0 s0 = Ok (t1, s1) ->
     forall k, is_Some (leaf_communities_edgelist s1 !! k) <->
       is_Some (leaf_communities_edgelist s0 !! k) \/
       exists h, In (k, h) (crec (induced g cv) d0) /\ leaf_community_cond min_vertices h) ->
  children_loop recurse g d i cs t s = Ok (t', s') ->
  forall k, is_Some (leaf_communities_edgelist s' !! k) <->
    is_Some (leaf_communities_edgelist s !! k) \/
    exists h, In (k, h) (calls_loop crec g d i cs) /\ leaf_community_cond min_vertices h.
Proof.
  revert i t s. induction cs as [|cv cs IH]; intros i t s Hrec; cbn [children_loop calls_loop].
  - intros [= <- <-] k. split; [left; done|]. intros [Hk | (h & [] & _)]. done.
  - destruct (recurse (induced g cv) _ child_init s) as [[t1 s1]|e] eqn:Er; cbn [bind];
      [|discriminate].
    intros Hloop k. cbn [fst snd] in Hloop.
    pose proof (Hrec cv (or_introl eq_refl) _ _ _ _ _ Er k) as Hk1.
    assert (forall cv', In cv' cs -> forall d0 t0 s0 t2 s2,
      recurse (induced g cv') d0 t0 s0 = Ok (t2, s2) ->
      forall k, is_Some (leaf_communities_edgelist s2 !! k) <->
        is_Some (leaf_communities_edgelist s0 !! k) \/
        exists h, In (k, h) (crec (induced g cv') d0) /\ leaf_community_cond min_vertices h)
      as Hrec' by (intros cv' Hcv'; apply Hrec; right; done).
    rewrite (IH _ _ _ Hrec' Hloop k), Hk1.
    setoid_rewrite in_app_iff. naive_solver.
Qed.

Lemma fcr_leaf_map fuel m g d t s t' s' :
  find_communities_recursive min_vertices key_regulators fuel m g d t s = Ok (t', s') ->
  forall k, is_Some (leaf_communities_edgelist s' !! k) <->
    is_Some (leaf_communities_edgelist s !! k) \/
    exists h, In (k, h) (calls min_vertices fuel m g d) /\ leaf_community_cond min_vertices h.
Proof.
  revert m g d t s t' s'.
  induction fuel as [|f IH]; intros m g d t s t' s'; cbn [find_communities_recursive calls];
    [discriminate|].
  destruct (find_properties g _); cbn [bind]; [|discriminate].
  destruct (build_key_regs _ _); cbn [bind]; [|discriminate].
  assert (forall s0, leaf_communities_edgelist
            (fold_left (fun s p => put_trace (snd p) d s) (key_reg_vertex key_regulators g)
               match d with Some d0 => put_inclusive d0 g s0 | None => s0 end) =
          leaf_communities_edgelist s0) as Hpre.
  { intros s0. rewrite trace_fold_leaf. destruct d; done. }
  unfold leaf_community_cond.
  destruct (has_cycles g) eqn:Hc; cbn [negb].
  2:{ intros [= <- <-] k. rewrite Hpre. cbn [In].
      split; [left; done|]. intros [Hk | (h & [[= <- <-] | []] & Hh & _)]; [done | congruence]. }
  destruct (Z.leb_spec (Z.of_nat (vcount g)) min_vertices) as [Hle|Hgt].
  - pose proof (length_edge_names g) as Hlen.
    destruct (Nat.ltb_spec 1 (length (edge_names g))) as [Hlt|Hge].
    + intros [= <- <-] k. cbn [put_leaf leaf_communities_edgelist]. rewrite Hpre.
      rewrite lookup_insert. cbn [In]. case_decide as Hdk.
      * subst. split; [|intros _; done].
        intros _. right. exists g. split; [left; reflexivity|]. split; [done|]. split; lia.
      * split; [intros Hk; left; done|].
        intros [Hk | (h & [[= <- <-] | []] & _)]; [done | congruence].
    + intros [= <- <-] k. rewrite Hpre. cbn [In].
      split; [left; done|]. intros [Hk | (h & [[= <- <-] | []] & _ & _ & Hh)]; [done | lia].
  - destruct (communities m g) as [comms|]; cbn [bind]; [|discriminate].
    intros Hloop k.
    eapply children_loop_leaf in Hloop; [|intros; eapply IH; eassumption].
    rewrite Hloop.
    assert (leaf_communities_edgelist
      match d with Some d0 => put_root ("0_" ++ d0)%string (edge_names g)
        (fold_left (fun s p => put_trace (snd p) d s) (key_reg_vertex key_regulators g)
           match d with Some d1 => put_inclusive d1 g s | None => s end)
      | None => fold_left (fun s p => put_trace (snd p) d s) (key_reg_vertex key_regulators g)
           match d with Some d1 => put_inclusive d1 g s | None => s end end =
      leaf_communities_edgelist s) as Hpre'.
    { destruct d; cbn [put_root leaf_communities_edgelist]; apply Hpre. }
    rewrite Hpre'. cbn [In].
    split; [intros [Hk | (h & Hh & Hc')]; [left; done | right; exists h; split; [right|]; done]|].
    intros [Hk | (h & [[= <- <-] | Hh] & Hc')]; [left; done | lia | right; exists h; done].
Qed.

End LeafMapProofs.

(** C9 (as corrected): after a run that starts with an empty leaf map,
    the map has an entry at key k exactly when some call of the recursion
    with lineage argument k was on a cyclic graph with at most
    [min_vertices] vertices and more than one edge.  Acyclic leaves never
    contribute an entry, whatever their size. *)
Theorem leaf_map_entries `{IGraphLib} (min_vertices : Z) (key_regulators : list string)
    (fuel m : nat) (g : graph) (t t' : node) (s s' : cf_state) :
  leaf_communities_edgelist s = ∅ ->
  find_communities_recursive min_vertices key_regulators fuel m g None t s = Ok (t', s') ->
  forall k, is_Some (leaf_communities_edgelist s' !! k) <->
    exists h, In (k, h) (calls min_vertices fuel m g None) /\ leaf_community_cond min_vertices h.
Proof.
  intros Hs Hrun k. rewrite (fcr_leaf_map _ _ _ _ _ _ _ _ _ _ Hrun k), Hs, lookup_empty.
  split; [intros [Hk | Hk]; [by apply is_Some_None in Hk | done] | intros Hk; right; done].
Qed.

(** ** Runs on concrete inputs *)

(** C1: on a graph made of one vertex [a] with a self-loop and minimum size
    3, the root subgraph is cyclic and has at most the minimum number of
    vertices, yet its [is_leaf_node] stays [false]: the flag is set only
    when the edge list has more than one edge, while the recursion stops
    in either case.  This holds whatever the graph library. *)
Theorem self_loop_root_not_leaf `{IGraphLib} :
  has_cycles g_loop = true /\ (Z.of_nat (vcount g_loop) <= 3)%Z /\
  match parse 3 s_empty (Some g_loop) (PyInt 3) (PyInt 50) PyNone with
  | Ok (t, _) => is_leaf_node t = Some false /\ num_vertices t = Some 1 /\ children t = []
  | Err _ => False
  end.
Proof. split; [reflexivity|]. split; [cbn; lia|]. vm_compute. repeat split. Qed.

(** C2: a key regulator present only in the root graph (the vertex [a] of
    the self-loop graph, selected with width 1) ends with the trace entry
    [None], the root's [depth] argument, and not the root lineage "0". *)
Theorem root_regulator_trace_none `{IGraphLib} :
  match parse 3 s_empty (Some g_loop) (PyInt 3) (PyInt 1) PyNone with
  | Ok (t, s) => lineage t = Some "0"%string /\ children t = [] /\
                 key_reg_trace s !! "a"%string = Some None
  | Err _ => False
  end.
Proof. vm_compute. repeat split. Qed.

(** C3: the root node, whose lineage is "0", is given depth 1 (the count of
    '_' in "0" plus one), not 0. *)
Theorem root_depth_one `{IGraphLib} :
  match parse 3 s_empty (Some g_loop) (PyInt 3) (PyInt 50) PyNone with
  | Ok (t, _) => lineage t = Some "0"%string /\ current_depth t = Some 1
  | Err _ => False
  end.
Proof. vm_compute. repeat split. Qed.

(** The partitioner returning the whole vertex set as one block meets the
    partition contract. *)
Lemma lib_whole_partition :
  forall g, is_partition (vcount g) (@community_multilevel lib_whole g) /\
            is_partition (vcount g) (@community_leading_eigenvector lib_whole g).
Proof.
  intros g. cbn [community_multilevel community_leading_eigenvector lib_whole].
  destruct (Nat.eqb_spec (vcount g) 0) as [H0|H0].
  - split; split; constructor.
  - assert (is_partition (vcount g) [seq 0 (vcount g)]) as Hp.
    { split.
      - cbn [concat]. rewrite app_nil_r. apply seq_NoDup.
      - constructor; [|constructor]. split.
        + destruct (vcount g); [lia | discriminate].
        + apply List.Forall_forall. intros x Hx. apply in_seq in Hx. lia. }
    split; exact Hp.
Qed.

Lemma decomposition_terminates_witness :
  (forall g, is_partition (vcount g) (@community_multilevel lib_whole g) /\
             is_partition (vcount g) (@community_leading_eigenvector lib_whole g)) /\
  (forall obj_min s0 g minv w cf,
     @parse lib_whole obj_min s0 (Some g) minv w cf <> Err OutOfFuel).
Proof.
  split; [exact lib_whole_partition|].
  exact (proj2 (proj2 (@decomposition_terminates lib_whole lib_whole_partition))).
Defined.

(** The selection with width 3 on the two-vertex graph a - b returns both
    vertices only. *)
Lemma key_regulator_ids_short :
  key_regulator_ids g_edge 3 = [0; 1] /\ vcount g_edge = 2.
Proof. split; reflexivity. Qed.

Lemma key_regulator_ids_top_witness :
  (0 < 2)%Z /\
  let ids := key_regulator_ids g_two_triangles 2 in
  length ids = Nat.min (Z.to_nat 2) (vcount g_two_triangles) /\
  List.NoDup ids /\
  (forall v, In v ids -> v < vcount g_two_triangles) /\
  (forall u v, u < vcount g_two_triangles -> ~ In u ids -> In v ids ->
     degree g_two_triangles u < degree g_two_triangles v \/
     (degree g_two_triangles u = degree g_two_triangles v /\ u < v)).
Proof. split; [lia|]. apply (key_regulator_ids_top g_two_triangles 2). lia. Defined.

Lemma find_properties_small_sentinel_witness :
  vcount g_edge < 3 /\
  exists out, @find_properties lib_halves g_edge [0; 1] = Ok out /\
    forall i, i ∈ [0; 1] -> out !! i = Some sentinel.
Proof.
  split; [cbn; lia|]. apply (@find_properties_small_sentinel lib_halves g_edge [0; 1]).
  cbn; lia.
Defined.

Lemma find_properties_normalised_witness :
  3 <= vcount g_path /\ @find_properties lib_halves g_path [1; 0] = Ok props_path /\
  1 ∈ [1; 0] /\
  let n := vcount g_path in
  let D := (Q_of_nat ((n - 1) * (n - 2)) / 2)%Q in
  exists e b c cc nc,
    nth_error (@evcent lib_halves g_path) 1 = Some e /\
    nth_error (@betweenness lib_halves g_path) 1 = Some b /\
    nth_error (@closeness lib_halves g_path) 1 = Some c /\
    nth_error (@transitivity_local_undirected lib_halves g_path) 1 = Some cc /\
    props_path !! 1 = Some [e / D; b / D; c;
                     Q_of_nat (length (List.filter (fun u => Nat.eqb (degree g_path u)
                                                            (degree g_path 1))
                                              (seq 0 n))) / Q_of_nat n;
                     cc; nc; Q_of_nat (degree g_path 1)]%Q.
Proof.
  assert (Hrun : @find_properties lib_halves g_path [1; 0] = Ok props_path)
    by (vm_compute; reflexivity).
  assert (Hin : 1 ∈ [1; 0]) by (left).
  split; [cbn; lia|]. split; [exact Hrun|]. split; [exact Hin|].
  apply (@find_properties_normalised lib_halves g_path [1; 0] props_path 1); [cbn; lia | exact Hrun | exact Hin].
Defined.

(** A width of 0 and a minimum of -1, neither positive, are accepted: the
    decomposition runs and returns a tree. *)
Lemma parse_accepts_nonpositive :
  match @parse lib_whole 3 s_empty (Some g_loop) (PyInt (-1)) (PyInt 0) PyNone with
  | Ok (t, _) => num_vertices t = Some 1
  | Err _ => False
  end.
Proof. vm_compute. reflexivity. Qed.

Lemma parse_argument_checks_witness :
  @parse lib_whole 3 s_empty (Some g_loop) PyNone (PyInt 1) PyNone =
  @parse lib_whole 3 s_empty (Some g_loop) (PyInt 3) (PyInt 1) PyNone.
Proof.
  apply (proj2 (@parse_argument_checks lib_whole 3 s_empty g_loop PyNone (PyInt 1) PyNone)).
  intros z; discriminate.
Defined.

(** On the path a - b - c with minimum size 3 the root is a leaf with 3
    vertices and 2 edges, yet the leaf map stays empty: the path is
    acyclic, so stop condition A returns before any entry is written. *)
Lemma acyclic_leaf_no_entry :
  match @parse lib_halves 3 s_empty (Some g_path) (PyInt 3) (PyInt 1) PyNone with
  | Ok (t, s) => is_leaf_node t = Some true /\ num_vertices t = Some 3 /\
                 length (edges g_path) = 2 /\ leaf_communities_edgelist s = ∅
  | Err _ => False
  end.
Proof. vm_compute. repeat split. Qed.

Lemma leaf_map_entries_witness :
  leaf_communities_edgelist s_empty = ∅ /\
  run_two_triangles = Ok (run_two_triangles_tree, run_two_triangles_state) /\
  forall k, is_Some (leaf_communities_edgelist run_two_triangles_state !! k) <->
    exists h, In (k, h) (@calls lib_halves 3 7 0 g_two_triangles None) /\
              leaf_community_cond 3 h.
Proof.
  assert (Hr : run_two_triangles = Ok (run_two_triangles_tree, run_two_triangles_state))
    by (vm_compute; reflexivity).
  split; [reflexivity|]. split; [exact Hr|].
  exact (@leaf_map_entries lib_halves 3 [] 7 0 g_two_triangles root_init
           run_two_triangles_tree s_empty run_two_triangles_state eq_refl Hr).
Defined.

Lemma parse_algorithm_selector_witness :
  relabel_root "Louvain" (@parse lib_whole 3 s_empty (Some g_loop) (PyInt 3) (PyInt 1) PyNone) =
  @parse lib_whole 3 s_empty (Some g_loop) (PyInt 3) (PyInt 1) (PyStr "louvain").
Proof.
  apply (proj2 ((proj1 (@parse_algorithm_selector lib_whole 3 s_empty g_loop (PyInt 3)))
                  (PyInt 1) PyNone (fun a => ltac:(discriminate)))).
Defined.

(** * Further properties of [CommunityFinder] *)

(** ** [check_star_topology] *)

(** Extra X1: [check_star_topology] returns [False] for every graph: [_es_count] is
    the vertex count, so the first test [_es_count != _vs_count - 1] always
    holds. *)
Theorem check_star_topology_always_false (g : graph) : check_star_topology g = false.
Proof.
  unfold check_star_topology.
  rewrite (proj2 (Z.eqb_neq (Z.of_nat (vcount g)) (Z.of_nat (vcount g) - 1))) by lia.
  reflexivity.
Qed.

(** ** [has_cycles] *)

Lemma edge_eqb_eq (e f : nat * nat) : edge_eqb e f = true -> e = f.
Proof.
  destruct e as [a b], f as [c d]. unfold edge_eqb. cbn [fst snd].
  rewrite andb_true_iff, !Nat.eqb_eq. intros [-> ->]. done.
Qed.

Lemma nx_edges_fold (es acc : list (nat * nat)) :
  (forall x, In x acc ->
     In x (fold_left (fun acc e =>
       if existsb (edge_eqb (norm_edge e)) acc then acc else acc ++ [norm_edge e]) es acc)) /\
  (forall e, In e es ->
     In (norm_edge e) (fold_left (fun acc e =>
       if existsb (edge_eqb (norm_edge e)) acc then acc else acc ++ [norm_edge e]) es acc)) /\
  (forall f, In f (fold_left (fun acc e =>
       if existsb (edge_eqb (norm_edge e)) acc then acc else acc ++ [norm_edge e]) es acc) ->
     In f acc \/ exists e, In e es /\ f = norm_edge e).
Proof.
  revert acc. induction es as [|e es IH]; intros acc; cbn [fold_left].
  - split; [done|]. split; [intros ? []|]. intros f Hf. left. done.
  - set (acc' := if existsb (edge_eqb (norm_edge e)) acc then acc else acc ++ [norm_edge e]).
    assert (forall x, In x acc -> In x acc') as Hsub.
    { intros x Hx. subst acc'. destruct (existsb _ _); [done|]. apply in_or_app. left. done. }
    assert (In (norm_edge e) acc') as Hne.
    { subst acc'. destruct (existsb _ _) eqn:Ex.
      - apply existsb_exists in Ex as (f & Hf & Hef). apply edge_eqb_eq in Hef. subst. done.
      - apply in_or_app. right. left. done. }
    destruct (IH acc') as (IH1 & IH2 & IH3).
    split; [|split].
    + intros x Hx. apply IH1, Hsub, Hx.
    + intros e' [<- | He']; [apply IH1, Hne | apply IH2, He'].
    + intros f Hf. destruct (IH3 f Hf) as [Hf' | (e' & He' & ->)].
      * subst acc'. destruct (existsb _ _); [left; done|].
        apply in_app_or in Hf' as [Hf' | [<- | []]]; [left; done|].
        right. exists e. split; [left|]; done.
      * right. exists e'. split; [right|]; done.
Qed.

Lemma closes_cycle_self_loop (lab : nat -> nat) (es : list (nat * nat)) (a : nat) :
  In (a, a) es -> closes_cycle lab es = true.
Proof.
  revert lab. induction es as [|[u v] es IH]; intros lab Hin; [done|]. cbn [closes_cycle].
  destruct (Nat.eqb_spec (lab u) (lab v)) as [|Hne]; [done|].
  destruct Hin as [[= -> ->] | Hin]; [done|]. apply IH, Hin.
Qed.

(** Extra X2: A self-loop is a cycle for [has_cycles] ([nx.find_cycle] reports it). *)
Theorem has_cycles_self_loop (g : graph) (a : nat) :
  In (a, a) (edges g) -> has_cycles g = true.
Proof.
  intros Ha. unfold has_cycles, nx_edges.
  apply (closes_cycle_self_loop _ _ a).
  destruct (nx_edges_fold (edges g) []) as (_ & H2 & _).
  specialize (H2 _ Ha). unfold norm_edge in H2. rewrite Nat.leb_refl in H2. exact H2.
Qed.

Lemma label_set_merge (lab : nat -> nat) (n u v : nat) :
  u < n -> v < n -> lab u <> lab v ->
  label_set (fun y => if Nat.eqb (lab y) (lab v) then lab u else lab y) n =
  label_set lab n ∖ {[lab v]}.
Proof.
  intros Hu Hv Hne. unfold label_set. apply set_eq. intros x.
  rewrite elem_of_difference, elem_of_singleton, !elem_of_list_to_set, !list_elem_of_In,
    !in_map_iff.
  split.
  - intros (y & <- & Hy). destruct (Nat.eqb_spec (lab y) (lab v)) as [Hyv|Hyv].
    + split; [|done]. exists u. split; [done | apply in_seq; lia].
    + split; [exists y; done | done].
  - intros [(y & <- & Hy) Hyv]. exists y. split; [|done].
    destruct (Nat.eqb_spec (lab y) (lab v)); [done | reflexivity].
Qed.

Lemma closes_cycle_bound (lab : nat -> nat) (n : nat) (es : list (nat * nat)) :
  0 < n -> Forall (fun e => fst e < n /\ snd e < n) es ->
  closes_cycle lab es = false -> length es < size (label_set lab n).
Proof.
  intros Hn. revert lab. induction es as [|[u v] es IH]; intros lab Hr Hc; cbn [length].
  - assert (lab 0 ∈ label_set lab n) as H0.
    { unfold label_set. rewrite elem_of_list_to_set, list_elem_of_In, in_map_iff.
      exists 0. split; [done | apply in_seq; lia]. }
    destruct (size (label_set lab n)) eqn:Es; [|lia].
    apply size_empty_inv in Es. set_solver.
  - inversion Hr as [|? ? [Hu Hv] Hr']; subst. cbn [fst snd] in Hu, Hv.
    cbn [closes_cycle] in Hc. destruct (Nat.eqb_spec (lab u) (lab v)) as [|Hne]; [discriminate|].
    specialize (IH _ Hr' Hc). rewrite label_set_merge in IH by done.
    rewrite size_difference in IH.
    + rewrite size_singleton in IH. lia.
    + apply singleton_subseteq_l. unfold label_set.
      rewrite elem_of_list_to_set, list_elem_of_In, in_map_iff.
      exists v. split; [done | apply in_seq; lia].
Qed.

(** Extra X3: When [has_cycles] finds no cycle, the networkx graph (edges taken
    without direction, parallel copies merged) has fewer edges than the
    igraph graph has vertices: a graph with at least as many distinct edges
    as vertices is always reported cyclic. *)
Theorem has_cycles_false_forest_bound (g : graph) :
  edges_in_range g -> has_cycles g = false ->
  length (nx_edges (edges g)) <= vcount g - 1.
Proof.
  intros Hr Hc.
  destruct (Nat.eq_dec (vcount g) 0) as [H0|H0].
  - destruct (edges g) as [|[a b] es] eqn:Ee.
    + unfold nx_edges. cbn. lia.
    + exfalso. destruct (Hr a b) as [Ha _]; [rewrite Ee; left; done | lia].
  - assert (Forall (fun e => fst e < vcount g /\ snd e < vcount g) (nx_edges (edges g))) as Hf.
    { apply List.Forall_forall. intros f Hf. unfold nx_edges in Hf.
      destruct (nx_edges_fold (edges g) []) as (_ & _ & H3).
      destruct (H3 f Hf) as [[] | ([a b] & Hab & ->)].
      destruct (Hr a b Hab). unfold norm_edge. destruct (Nat.leb a b); cbn; lia. }
    pose proof (closes_cycle_bound (fun y => y) (vcount g) _ ltac:(lia) Hf Hc) as Hb.
    unfold label_set in Hb. rewrite map_id, size_list_to_set, length_seq in Hb
      by apply NoDup_seq.
    lia.
Qed.

(** ** [find_topological_and_centrality_properties] *)

Lemma length_neighbors (g : graph) (v : nat) : length (neighbors g v) = degree g v.
Proof.
  unfold neighbors, degree. induction (edges g) as [|[a b] es IH]; [done|].
  cbn [flat_map fold_right]. rewrite !length_app, IH.
  destruct (Nat.eqb a v), (Nat.eqb b v); reflexivity.
Qed.

Section MorePropertyProofs.
Context `{IGraphLib}.

Lemma nth_error_degrees_some (g : graph) (v : nat) :
  v < vcount g -> nth_error (degrees g) v = Some (degree g v).
Proof.
  intros Hv. unfold degrees. rewrite nth_error_map, nth_error_seq.
  destruct (Nat.ltb_spec v (vcount g)); [reflexivity | lia].
Qed.

Lemma vertex_properties_in_range (g : graph) (n : nat) (dnorm : Q) (v : nat) :
  lib_lengths_ok g -> v < vcount g ->
  (vertex_properties g n dnorm v = Err ZeroDivisionError /\ degree g v = 0) \/
  (exists p, vertex_properties g n dnorm v = Ok p /\ degree g v <> 0).
Proof.
  intros (He & Hb & Hc & Ht) Hv. unfold vertex_properties, py_index.
  destruct (nth_error (evcent g) v) eqn:E1; [|apply nth_error_None in E1; lia]. cbn [bind].
  destruct (nth_error (betweenness g) v) eqn:E2; [|apply nth_error_None in E2; lia]. cbn [bind].
  destruct (nth_error (closeness g) v) eqn:E3; [|apply nth_error_None in E3; lia]. cbn [bind].
  rewrite nth_error_degrees_some by done. cbn [bind].
  destruct (nth_error (transitivity_local_undirected g) v) eqn:E4;
    [|apply nth_error_None in E4; lia]. cbn [bind].
  rewrite length_neighbors.
  destruct (Nat.eqb_spec (degree g v) 0); cbn [bind].
  - left. done.
  - right. eexists. split; [reflexivity | done].
Qed.

Lemma props_fold_result (g : graph) (n : nat) (dnorm : Q) (idx : list nat)
    (m : gmap nat (list Q)) :
  lib_lengths_ok g -> (forall v, In v idx -> v < vcount g) ->
  (fold_left (props_step g n dnorm) idx (Ok m) = Err ZeroDivisionError <->
     exists v, In v idx /\ degree g v = 0) /\
  ((forall v, In v idx -> degree g v <> 0) ->
     exists out, fold_left (props_step g n dnorm) idx (Ok m) = Ok out).
Proof.
  intros Hlib. revert m. induction idx as [|x idx IH]; intros m Hr; cbn [fold_left].
  - split; [split; [discriminate | intros (v & [] & _)] | intros _; eexists; reflexivity].
  - destruct (vertex_properties_in_range g n dnorm x Hlib (Hr x (or_introl eq_refl)))
      as [[Ex Hd] | (p & Ex & Hd)].
    + assert (props_step g n dnorm (Ok m) x = Err ZeroDivisionError) as ->
        by (unfold props_step; cbn [bind]; rewrite Ex; reflexivity).
      rewrite props_fold_err. split.
      * split; [intros _; exists x; split; [left|]; done | done].
      * intros Hall. exfalso. exact (Hall x (or_introl eq_refl) Hd).
    + assert (props_step g n dnorm (Ok m) x = Ok (<[x := p]> m)) as ->
        by (unfold props_step; cbn [bind]; rewrite Ex; reflexivity).
      destruct (IH (<[x := p]> m)) as [IH1 IH2]; [intros v Hv; apply Hr; right; done|].
      split.
      * rewrite IH1. split.
        -- intros (v & Hv & Hdv). exists v. split; [right|]; done.
        -- intros (v & [<- | Hv] & Hdv); [done|]. exists v. done.
      * intros Hall. apply IH2. intros v Hv. apply Hall. right. done.
Qed.

Lemma vertex_properties_nc (g : graph) (n : nat) (dnorm : Q) (v : nat) (p : list Q) :
  vertex_properties g n dnorm v = Ok p ->
  length p = 7 /\ degree g v <> 0 /\
  nth_error p 5 = Some (Q_of_nat (sum_nat (map (degree g) (neighbors g v))) /
                        Q_of_nat (degree g v))%Q.
Proof.
  unfold vertex_properties, py_index.
  repeat match goal with
  | |- context [match ?x with Some _ => _ | None => _ end] =>
      destruct x; cbn [bind]; [|discriminate]
  end.
  rewrite length_neighbors.
  destruct (Nat.eqb_spec (degree g v) 0); cbn [bind]; [discriminate|].
  intros [= <-]. split; [reflexivity|]. split; [done | reflexivity].
Qed.

Lemma fcr_isolated_key_regulator (min_vertices : Z) (key_regulators : list string)
    (fuel m : nat) (g : graph) (d : option string) (t : node) (s : cf_state) (v : nat) :
  lib_lengths_ok g -> 3 <= vcount g -> v < vcount g -> vname g v ∈ key_regulators ->
  degree g v = 0 ->
  find_communities_recursive min_vertices key_regulators (S fuel) m g d t s =
    Err ZeroDivisionError.
Proof.
  intros Hlib Hn Hv Hkr Hd. cbn [find_communities_recursive].
  assert (find_properties g (map fst (key_reg_vertex key_regulators g)) = Err ZeroDivisionError)
    as ->; [|reflexivity].
  unfold find_properties. destruct (Nat.ltb_spec (vcount g) 3); [lia|].
  apply props_fold_result; [done | |].
  - intros x Hx. apply in_map_iff in Hx as ([x' nm] & <- & Hx).
    unfold key_reg_vertex in Hx. apply filter_In in Hx as [Hx _].
    apply in_map_iff in Hx as (y & [= <- _] & Hy). apply in_seq in Hy. cbn [fst]. lia.
  - exists v. split; [|done]. apply in_map_iff. exists (v, vname g v). split; [done|].
    unfold key_reg_vertex. apply filter_In. split.
    + apply in_map_iff. exists v. split; [done | apply in_seq; lia].
    + cbn [snd]. by rewrite bool_decide_eq_true.
Qed.

End MorePropertyProofs.

(** Extra X4: The property computation returns a value exactly for the requested
    vertex indices. *)
Theorem find_properties_keys `{IGraphLib} (g : graph) (vertex_indices : list nat)
    (out : gmap nat (list Q)) :
  find_properties g vertex_indices = Ok out ->
  forall i, is_Some (out !! i) <-> i ∈ vertex_indices.
Proof.
  unfold find_properties. destruct (Nat.ltb (vcount g) 3).
  - intros [= <-] i. rewrite lookup_fold_insert_const. case_bool_decide as Hi.
    + split; [done | eexists; done].
    + rewrite lookup_empty. split; [intros Hs; by apply is_Some_None in Hs | done].
  - intros Hf i. split.
    + intros Hs. destruct (decide (i ∈ vertex_indices)) as [|Hni]; [done|].
      rewrite (props_fold_other _ _ _ _ _ _ _ Hf Hni), lookup_empty in Hs.
      by apply is_Some_None in Hs.
    + intros Hi. destruct (props_fold_ok _ _ _ _ _ _ Hf i Hi) as (p & _ & Hp).
      rewrite Hp. eexists. done.
Qed.

(** Extra X5: From three vertices on, with the igraph lists of one value per vertex
    and every requested index a vertex, the computation raises
    [ZeroDivisionError] exactly when a requested vertex is isolated (its
    neighbourhood connectivity divides by [len(_neighborhood)] = 0), and
    succeeds otherwise. *)
Theorem find_properties_isolated_vertex `{IGraphLib} (g : graph) (vertex_indices : list nat) :
  lib_lengths_ok g -> 3 <= vcount g -> (forall v, In v vertex_indices -> v < vcount g) ->
  (find_properties g vertex_indices = Err ZeroDivisionError <->
     exists v, In v vertex_indices /\ degree g v = 0) /\
  ((forall v, In v vertex_indices -> degree g v <> 0) ->
     exists out, find_properties g vertex_indices = Ok out).
Proof.
  intros Hlib Hn Hr. unfold find_properties.
  destruct (Nat.ltb_spec (vcount g) 3); [lia|]. apply props_fold_result; done.
Qed.

(** Extra X6: From three vertices on, a returned tuple has seven values, and its sixth,
    the neighbourhood connectivity, is the sum of the degrees of the
    vertex's neighbours (one per incident edge end) divided by the vertex's
    degree, which is not 0. *)
Theorem find_properties_neighbourhood_connectivity `{IGraphLib} (g : graph)
    (vertex_indices : list nat) (out : gmap nat (list Q)) (v : nat) :
  3 <= vcount g -> find_properties g vertex_indices = Ok out -> v ∈ vertex_indices ->
  exists vals, out !! v = Some vals /\ length vals = 7 /\ degree g v <> 0 /\
    nth_error vals 5 = Some (Q_of_nat (sum_nat (map (degree g) (neighbors g v))) /
                             Q_of_nat (degree g v))%Q.
Proof.
  intros Hn Hf Hv. unfold find_properties in Hf.
  destruct (Nat.ltb_spec (vcount g) 3); [lia|].
  destruct (props_fold_ok _ _ _ _ _ _ Hf v Hv) as (p & Hp & Hl).
  exists p. split; [done|]. exact (vertex_properties_nc _ _ _ _ _ Hp).
Qed.

(** Extra X7: A call of the recursion on a graph of at least three vertices in which a
    key regulator is an isolated vertex aborts with [ZeroDivisionError]
    before any stop test, whatever its depth. *)
Theorem isolated_key_regulator_aborts `{IGraphLib} (min_vertices : Z)
    (key_regulators : list string) (fuel m : nat) (g : graph) (d : option string)
    (t : node) (s : cf_state) (v : nat) :
  lib_lengths_ok g -> 3 <= vcount g -> v < vcount g -> vname g v ∈ key_regulators ->
  degree g v = 0 ->
  find_communities_recursive min_vertices key_regulators (S fuel) m g d t s =
    Err ZeroDivisionError.
Proof. apply fcr_isolated_key_regulator. Qed.

Lemma key_regulator_ids_all (g : graph) (w : Z) (v : nat) :
  (Z.of_nat (vcount g) <= w)%Z -> v < vcount g -> In v (key_regulator_ids g w).
Proof.
  intros Hw Hv. unfold key_regulator_ids.
  assert (length (degrees g) = vcount g) as Hlen
    by (unfold degrees; rewrite length_map, length_seq; done).
  rewrite Hlen.
  set (key := fun i => nth i (degrees g) 0).
  destruct (sorted_by_spec key (seq 0 (vcount g)) [])
    as [_ Hp]; [constructor | apply seq_strongly_sorted | done |].
  cbn [app] in Hp. fold (sorted_by key (seq 0 (vcount g))) in Hp.
  rewrite py_slice_from_neg by lia.
  rewrite (Permutation_length Hp), length_seq.
  replace (vcount g - Nat.min (Z.to_nat w) (vcount g)) with 0 by lia.
  cbn [skipn]. apply (Permutation_in _ (Permutation_sym Hp)), in_seq. lia.
Qed.

(** Extra X8: With a bin width of at least the vertex count (the default 50 for a
    graph of at most 50 vertices) every vertex is a key regulator, so on a
    graph of at least three vertices with an isolated vertex, [parse] with a
    valid algorithm selector raises [ZeroDivisionError]. *)
Theorem parse_isolated_vertex_aborts `{IGraphLib} (obj_min : Z) (s0 : cf_state) (g : graph)
    (minv cf : pyval) (w : Z) (v : nat) :
  lib_lengths_ok g -> 3 <= vcount g -> (Z.of_nat (vcount g) <= w)%Z ->
  v < vcount g -> degree g v = 0 ->
  (cf = PyStr "louvain" \/ cf = PyStr "leading_eigenvector" \/ forall a, cf <> PyStr a)%string ->
  parse obj_min s0 (Some g) minv (PyInt w) cf = Err ZeroDivisionError.
Proof.
  intros Hlib Hn Hw Hv Hd Hcf. unfold parse.
  assert (vname g v ∈ map (vname g) (key_regulator_ids g w)) as Hin
    by (apply list_elem_of_In, in_map, key_regulator_ids_all; done).
  destruct Hcf as [-> | [-> | Hcf]].
  - rewrite bool_decide_true by done. unfold parse_run.
    apply (fcr_isolated_key_regulator _ _ _ _ _ _ _ _ v); done.
  - rewrite bool_decide_false by done. rewrite bool_decide_true by done. unfold parse_run.
    apply (fcr_isolated_key_regulator _ _ _ _ _ _ _ _ v); done.
  - destruct cf; try (exfalso; eapply Hcf; reflexivity);
      unfold parse_run; apply (fcr_isolated_key_regulator _ _ _ _ _ _ _ _ v); done.
Qed.

(** ** The dictionaries after a run *)

Section StateProofs.
Context `{IGraphLib}.
Variable min_vertices : Z.
Variable key_regulators : list string.

Lemma children_loop_state
    (recurse : graph -> option string -> node -> cf_state -> result (node * cf_state))
    (crec : graph -> option string -> list (option string * graph))
    g d i cs t s t' s' :
  (forall cv, In cv cs -> forall d0 t0 s0 t1 s1,
     recurse (induced g cv) d0 t0 s0 = Ok (t1, s1) ->
     s1 = fold_left (call_effect min_vertices key_regulators) (crec (induced g cv) d0) s0) ->
  children_loop recurse g d i cs t s = Ok (t', s') ->
  s' = fold_left (call_effect min_vertices key_regulators) (calls_loop crec g d i cs) s.
Proof.
  revert i t s. induction cs as [|cv cs IH]; intros i t s Hrec; cbn [children_loop calls_loop].
  - intros [= _ <-]. done.
  - destruct (recurse (induced g cv) _ child_init s) as [[t1 s1]|e] eqn:Er; cbn [bind]; [|discriminate].
    intros Hl. rewrite fold_left_app.
    rewrite <- (Hrec cv (or_introl eq_refl) _ _ _ _ _ Er).
    eapply IH; [|exact Hl]. intros cv' Hin. apply Hrec. right. exact Hin.
Qed.

Lemma fcr_state fuel m g d t s t' s' :
  find_communities_recursive min_vertices key_regulators fuel m g d t s = Ok (t', s') ->
  s' = fold_left (call_effect min_vertices key_regulators) (calls min_vertices fuel m g d) s.
Proof.
  revert m g d t s t' s'. induction fuel as [|fuel IH]; intros m g d t s t' s' Hrun;
    cbn [find_communities_recursive] in Hrun; [discriminate|].
  cbn [calls fold_left].
  destruct (find_properties _ _); cbn [bind] in Hrun; [|discriminate].
  destruct (build_key_regs _ _); cbn [bind] in Hrun; [|discriminate].
  destruct (has_cycles g) eqn:Hc; cbn [negb] in *.
  2:{ injection Hrun as _ <-. cbn [fold_left call_effect]. rewrite Hc. done. }
  destruct (Z.of_nat (vcount g) <=? min_vertices)%Z eqn:Hz.
  - cbn [fold_left call_effect]. rewrite Hc, Hz. cbn [negb].
    destruct (Nat.ltb 1 _); injection Hrun as _ <-; done.
  - destruct (communities m g); cbn [bind] in Hrun; [|discriminate].
    eapply children_loop_state; [|cbn [call_effect]; rewrite Hc, Hz; exact Hrun].
      intros cv _ d0 t0 s0 t1 s1 Hr. eapply IH. exact Hr.
Qed.

Lemma trace_fold_lookup (l : list (nat * string)) (d : option string) (s : cf_state) (x : string) :
  key_reg_trace (fold_left (fun s p => put_trace (snd p) d s) l s) !! x =
  if bool_decide (x ∈ map snd l) then Some d else key_reg_trace s !! x.
Proof.
  revert s. induction l as [|p l IH]; intros s; cbn [fold_left map].
  - rewrite bool_decide_eq_false_2; [done|]. apply not_elem_of_nil.
  - rewrite IH. cbn [key_reg_trace put_trace].
    destruct (decide (x ∈ map snd l)) as [Hx|Hx].
    + rewrite !bool_decide_eq_true_2; [done| |done]. apply elem_of_cons. right. done.
    + rewrite (bool_decide_eq_false_2 (x ∈ map snd l)) by done.
      destruct (decide (x = snd p)) as [->|Hne].
      * rewrite lookup_insert_eq, bool_decide_eq_true_2; [done|]. apply elem_of_cons. left. done.
      * rewrite lookup_insert_ne by congruence. rewrite bool_decide_eq_false_2; [done|].
        rewrite elem_of_cons. intros [?|?]; contradiction.
Qed.

Lemma trace_fold_others (l : list (nat * string)) (d : option string) (s : cf_state) :
  let s' := fold_left (fun s p => put_trace (snd p) d s) l s in
  leaf_communities_edgelist s' = leaf_communities_edgelist s /\
  root_communities_edgelist s' = root_communities_edgelist s /\
  communities_subgraph_inclusive s' = communities_subgraph_inclusive s.
Proof.
  revert s. induction l as [|p l IH]; intros s; cbn [fold_left]; [done|].
  destruct (IH (put_trace (snd p) d s)) as (H1 & H2 & H3). cbn zeta in *.
  rewrite H1, H2, H3. done.
Qed.

Lemma in_names_vname (h : graph) (x : string) :
  x ∈ names h <-> exists i, i < vcount h /\ vname h i = x.
Proof.
  unfold vcount, vname. rewrite list_elem_of_In. split.
  - intros Hx. destruct (In_nth _ _ ""%string Hx) as (i & Hi & Hn). eauto.
  - intros (i & Hi & <-). apply nth_In. done.
Qed.

Lemma key_reg_vertex_names (h : graph) (x : string) :
  x ∈ map snd (key_reg_vertex key_regulators h) <-> x ∈ key_regulators /\ x ∈ names h.
Proof.
  unfold key_reg_vertex. rewrite in_names_vname, !list_elem_of_In, in_map_iff. split.
  - intros ([i y] & <- & Hin). apply filter_In in Hin as [Hin Hb].
    apply in_map_iff in Hin as (j & [= <- <-] & Hj). apply in_seq in Hj.
    apply bool_decide_eq_true_1 in Hb. cbn in *. rewrite <- list_elem_of_In. split; [done|].
    exists j. split; [lia|done].
  - intros (Hk & i & Hi & <-). exists (i, vname h i). split; [done|].
    apply filter_In. split.
    + apply in_map_iff. exists i. split; [done|]. apply in_seq. lia.
    + apply bool_decide_eq_true_2. cbn. apply list_elem_of_In. done.
Qed.

(** The lookup in one dictionary after a sequence of calls: the last call
    that writes the key decides, else the start value stays. *)
Lemma fold_call_effect_lookup {V} (F : cf_state -> option V)
    (W : option string * graph -> option V)
    (cs : list (option string * graph)) (s : cf_state) (v : V) :
  (forall s c, F (call_effect min_vertices key_regulators s c) =
               match W c with Some w => Some w | None => F s end) ->
  F (fold_left (call_effect min_vertices key_regulators) cs s) = Some v <->
  (exists c1 c c2, cs = c1 ++ c :: c2 /\ W c = Some v /\ forall c', In c' c2 -> W c' = None) \/
  ((forall c, In c cs -> W c = None) /\ F s = Some v).
Proof.
  intros HF. induction cs as [|x cs IH] using rev_ind.
  - cbn [fold_left]. split.
    + intros Hs. right. split; [intros ? []|done].
    + intros [(c1 & c & c2 & Hc & _) | [_ Hs]]; [|done].
      apply app_cons_not_nil in Hc. contradiction.
  - rewrite fold_left_app. cbn [fold_left]. rewrite HF.
    destruct (W x) as [w|] eqn:Ew.
    + split.
      * intros [= <-]. left. exists cs, x, []. split; [done|]. split; [done|]. intros ? [].
      * intros [(c1 & c & c2 & Heq & Hw & Hn) | [Hn _]].
        -- destruct c2 as [|y c2'] using rev_ind.
           ++ apply app_inj_tail in Heq as [_ ->]. rewrite Hw in Ew. congruence.
           ++ rewrite app_comm_cons, app_assoc in Heq. apply app_inj_tail in Heq as [_ ->].
              rewrite Hn in Ew; [discriminate|]. apply in_or_app. right. left. done.
        -- rewrite Hn in Ew; [discriminate|]. apply in_or_app. right. left. done.
    + rewrite IH. split.
      * intros [(c1 & c & c2 & -> & Hw & Hn) | [Hn Hs]].
        -- left. exists c1, c, (c2 ++ [x]). split; [rewrite <- app_assoc; done|].
           split; [done|]. intros c' Hc'. apply in_app_or in Hc' as [Hc'|[<-|[]]]; auto.
        -- right. split; [|done]. intros c Hc. apply in_app_or in Hc as [Hc|[<-|[]]]; auto.
      * intros [(c1 & c & c2 & Heq & Hw & Hn) | [Hn Hs]].
        -- destruct c2 as [|y c2'] using rev_ind.
           ++ apply app_inj_tail in Heq as [_ ->]. congruence.
           ++ rewrite app_comm_cons, app_assoc in Heq. apply app_inj_tail in Heq as [-> ->].
              left. exists c1, c, c2'. split; [done|]. split; [done|].
              intros c' Hc'. apply Hn. apply in_or_app. left. done.
        -- right. split; [|done]. intros c Hc. apply Hn. apply in_or_app. left. done.
Qed.

End StateProofs.

(** ** Lineages are unique *)

Lemma string_app_cons (x : ascii) (a b : string) : (String x a ++ b = String x (a ++ b))%string.
Proof. reflexivity. Qed.

Lemma string_app_nil_l (a : string) : (""%string ++ a = a)%string.
Proof. reflexivity. Qed.

Lemma string_app_assoc (a b c : string) : ((a ++ b) ++ c = a ++ (b ++ c))%string.
Proof. induction a as [|x a IH]; [done|]. rewrite !string_app_cons, IH. done. Qed.

Lemma string_app_nil_r (a : string) : (a ++ "" = a)%string.
Proof. induction a as [|x a IH]; [done|]. rewrite string_app_cons, IH. done. Qed.

Lemma string_app_inv_head (a b c : string) : (a ++ b = a ++ c)%string -> b = c.
Proof. induction a as [|x a IH]; [done|]. rewrite !string_app_cons. intros [= E]. auto. Qed.

Lemma string_app_not_self (a b : string) (c : ascii) : (a ++ String c b)%string <> a.
Proof. induction a as [|x a IH]; [discriminate|]. rewrite string_app_cons. intros [= E]. auto. Qed.

Lemma digit_char_not_us (k : nat) : k < 10 -> Ascii.ascii_of_nat (48 + k) <> "_"%char.
Proof.
  intros Hk He. apply (f_equal nat_of_ascii) in He.
  rewrite Ascii.nat_ascii_embedding in He by lia.
  change (nat_of_ascii "_"%char) with 95 in He. lia.
Qed.

Lemma no_us_digits_aux (f n : nat) (acc : string) : no_us acc -> no_us (digits_aux f n acc).
Proof.
  revert n acc. induction f as [|f IH]; intros n acc Hacc; cbn [digits_aux]; [done|].
  assert (Hd : no_us (String (Ascii.ascii_of_nat (48 + n mod 10)) acc)).
  { split; [|done]. apply digit_char_not_us. apply Nat.mod_upper_bound. lia. }
  destruct (Nat.ltb n 10); [done|]. apply IH. done.
Qed.

Lemma no_us_str_of_nat (n : nat) : no_us (str_of_nat n).
Proof. apply no_us_digits_aux. exact I. Qed.

Lemma digits_value_digits_aux (f n : nat) (acc : string) :
  n < 10 ^ f ->
  digits_value (digits_aux f n acc) = n * 10 ^ String.length acc + digits_value acc.
Proof.
  revert n acc. induction f as [|f IH]; intros n acc Hn; cbn [digits_aux].
  - cbn in Hn. assert (n = 0) as -> by lia. done.
  - assert (Hdig : digits_value (String (Ascii.ascii_of_nat (48 + n mod 10)) acc) =
                   n mod 10 * 10 ^ String.length acc + digits_value acc).
    { cbn [digits_value]. rewrite Ascii.nat_ascii_embedding.
      - f_equal. f_equal. lia.
      - pose proof (Nat.mod_upper_bound n 10 ltac:(lia)). lia. }
    destruct (Nat.ltb n 10) eqn:Hlt.
    + apply Nat.ltb_lt in Hlt. rewrite Hdig, Nat.mod_small by done. done.
    + rewrite IH.
      * rewrite Hdig. cbn [String.length]. rewrite Nat.pow_succ_r'.
        pose proof (Nat.div_mod_eq n 10). nia.
      * rewrite Nat.pow_succ_r' in Hn. apply Nat.Div0.div_lt_upper_bound. lia.
Qed.

Lemma digits_value_str_of_nat (n : nat) : digits_value (str_of_nat n) = n.
Proof.
  unfold str_of_nat. rewrite digits_value_digits_aux.
  - cbn. lia.
  - pose proof (Nat.pow_gt_lin_r 10 (S n) ltac:(lia)). lia.
Qed.

Lemma str_of_nat_inj (i j : nat) : str_of_nat i = str_of_nat j -> i = j.
Proof.
  intros E. rewrite <- (digits_value_str_of_nat i), <- (digits_value_str_of_nat j), E. done.
Qed.

Lemma no_us_prefix (a b r1 r2 : string) :
  no_us a -> no_us b -> sep_tail r1 -> sep_tail r2 -> (a ++ r1 = b ++ r2)%string -> a = b.
Proof.
  revert b. induction a as [|x a IH]; intros [|y b] Ha Hb H1 H2 E; cbn in E; [done| | |].
  - destruct Hb as [Hy _]. destruct H1 as [->|(r' & ->)]; [discriminate|].
    injection E as <- _. contradiction.
  - destruct Ha as [Hx _]. destruct H2 as [->|(r' & ->)]; [discriminate|].
    injection E as -> _. contradiction.
  - injection E as <- E. destruct Ha as [_ Ha], Hb as [_ Hb]. f_equal. eauto.
Qed.

Lemma at_or_under_child (d : option string) (i j : nat) (l : option string) :
  l = Some (child_lineage d i) \/ at_or_under (Some (child_lineage d i)) j l ->
  at_or_under d i l.
Proof.
  intros [->|(r & -> & _)].
  - exists ""%string. rewrite string_app_nil_r. split; [done|]. left. done.
  - exists (String "_" (str_of_nat j ++ r)). split; [|right; eauto].
    cbn [child_lineage]. rewrite !string_app_assoc. done.
Qed.

Lemma at_or_under_not_self (d : option string) (j : nat) (l : option string) :
  at_or_under d j l -> l <> d.
Proof.
  intros (r & -> & _). destruct d as [x|]; [|discriminate].
  cbn [child_lineage]. rewrite !string_app_assoc. intros [= E].
  exact (string_app_not_self _ _ _ E).
Qed.

Lemma at_or_under_inj (d : option string) (i j : nat) (l : option string) :
  at_or_under d i l -> at_or_under d j l -> i = j.
Proof.
  intros (r1 & -> & H1) (r2 & E & H2). injection E as E.
  apply str_of_nat_inj.
  destruct d as [x|]; cbn [child_lineage] in E; rewrite ?string_app_assoc in E.
  - apply string_app_inv_head in E. cbn in E. injection E as E.
    eapply no_us_prefix; [apply no_us_str_of_nat|apply no_us_str_of_nat|exact H1|exact H2|exact E].
  - eapply no_us_prefix; [apply no_us_str_of_nat|apply no_us_str_of_nat|exact H1|exact H2|exact E].
Qed.

Section LineageProofs.
Context `{IGraphLib}.
Variable min_vertices : Z.

Lemma calls_loop_lineages
    (crec : graph -> option string -> list (option string * graph)) g d i cs :
  (forall cv d0, List.NoDup (map fst (crec (induced g cv) d0))) ->
  (forall cv d0 c, In c (crec (induced g cv) d0) ->
     fst c = d0 \/ exists j, 1 <= j /\ at_or_under d0 j (fst c)) ->
  List.NoDup (map fst (calls_loop crec g d i cs)) /\
  forall c, In c (calls_loop crec g d i cs) -> exists j, i <= j /\ at_or_under d j (fst c).
Proof.
  intros Hnd Hsh. revert i. induction cs as [|cv cs IH]; intros i; cbn [calls_loop].
  - split; [constructor|intros ? []].
  - destruct (IH (S i)) as [Hnd' Hsh'].
    assert (Hhere : forall c, In c (crec (induced g cv) (Some (child_lineage d i))) ->
                      at_or_under d i (fst c)).
    { intros c Hc. destruct (Hsh _ _ _ Hc) as [E|(j & _ & Hj)].
      - apply (at_or_under_child _ _ 0). left. exact E.
      - apply (at_or_under_child _ _ j). right. exact Hj. }
    split.
    + rewrite map_app. apply List.NoDup_app; [apply Hnd|exact Hnd'|].
      intros l Hl1 Hl2. apply in_map_iff in Hl1 as (c1 & <- & Hc1).
      apply in_map_iff in Hl2 as (c2 & E & Hc2).
      destruct (Hsh' _ Hc2) as (j & Hj & Hu). rewrite E in Hu.
      pose proof (at_or_under_inj _ _ _ _ (Hhere _ Hc1) Hu). lia.
    + intros c Hc. apply in_app_or in Hc as [Hc|Hc].
      * exists i. split; [lia|]. apply Hhere. exact Hc.
      * destruct (Hsh' _ Hc) as (j & Hj & Hu). exists j. split; [lia|done].
Qed.

Lemma calls_lineages fuel m g d :
  List.NoDup (map fst (calls min_vertices fuel m g d)) /\
  forall c, In c (calls min_vertices fuel m g d) ->
    fst c = d \/ exists j, 1 <= j /\ at_or_under d j (fst c).
Proof.
  revert g d. induction fuel as [|fuel IH]; intros g d; cbn [calls].
  - split; [constructor|intros ? []].
  - set (rest := if negb (has_cycles g) then [] else _).
    assert (Hrest : List.NoDup (map fst rest) /\
                    forall c, In c rest -> exists j, 1 <= j /\ at_or_under d j (fst c)).
    { subst rest. destruct (negb (has_cycles g)); [split; [constructor|intros ? []]|].
      destruct (Z.of_nat (vcount g) <=? min_vertices)%Z; [split; [constructor|intros ? []]|].
      destruct (communities m g); [|split; [constructor|intros ? []]].
      apply calls_loop_lineages; intros; [apply IH|eapply IH; eauto]. }
    destruct Hrest as [Hnd Hsh]. split.
    + cbn [map]. constructor; [|exact Hnd].
      intros Hin. apply in_map_iff in Hin as (c & E & Hc).
      destruct (Hsh _ Hc) as (j & _ & Hu). exact (at_or_under_not_self _ _ _ Hu E).
    + intros c [<-|Hc]; [left; done|right; auto].
Qed.

End LineageProofs.

Lemma nodup_fst_last_writer {V} (cs : list (option string * graph))
    (W : option string * graph -> option V) (v : V) :
  List.NoDup (map fst cs) ->
  (forall c1 c2 v1 v2, In c1 cs -> In c2 cs -> W c1 = Some v1 -> W c2 = Some v2 -> fst c1 = fst c2) ->
  (exists c1 c c2, cs = c1 ++ c :: c2 /\ W c = Some v /\ forall c', In c' c2 -> W c' = None) <->
  (exists c, In c cs /\ W c = Some v).
Proof.
  intros Hnd Hkey. split.
  - intros (c1 & c & c2 & -> & Hw & _). exists c. split; [|done]. apply in_or_app. right. left. done.
  - intros (c & Hc & Hw). apply in_split in Hc as (c1 & c2 & Heq).
    exists c1, c, c2. split; [done|]. split; [done|].
    intros c' Hc'. destruct (W c') as [v'|] eqn:Ew; [|done]. exfalso.
    assert (E : fst c' = fst c).
    { apply (Hkey c' c v' v); [| |done|done]; rewrite Heq; apply in_or_app; right; [right|left]; done. }
    rewrite Heq, map_app in Hnd. apply List.NoDup_remove_2 in Hnd. apply Hnd.
    apply in_or_app. right. cbn [map]. rewrite <- E. apply in_map. done.
Qed.

Section StepProofs.
Variable min_vertices : Z.
Variable key_regulators : list string.

Lemma call_effect_inclusive (s : cf_state) (d : option string) (h : graph) :
  communities_subgraph_inclusive (call_effect min_vertices key_regulators s (d, h)) =
  match d with
  | Some d0 => <[d0 := h]> (communities_subgraph_inclusive s)
  | None => communities_subgraph_inclusive s
  end.
Proof.
  cbn [call_effect].
  set (s1 := match d with Some d0 => put_inclusive d0 h s | None => s end).
  set (s2 := fold_left _ _ s1).
  assert (E : communities_subgraph_inclusive s2 = communities_subgraph_inclusive s1)
    by apply trace_fold_others.
  transitivity (communities_subgraph_inclusive s2).
  - destruct (negb (has_cycles h)); [done|].
    destruct (Z.of_nat (vcount h) <=? min_vertices)%Z; [destruct (Nat.ltb 1 _)|destruct d]; done.
  - rewrite E. subst s1. destruct d; done.
Qed.


Lemma call_effect_leaf (s : cf_state) (d : option string) (h : graph) :
  leaf_communities_edgelist (call_effect min_vertices key_regulators s (d, h)) =
  if has_cycles h && (Z.of_nat (vcount h) <=? min_vertices)%Z && Nat.ltb 1 (length (edges h))
  then <[d := edge_names h]> (leaf_communities_edgelist s)
  else leaf_communities_edgelist s.
Proof.
  cbn [call_effect].
  set (s1 := match d with Some d0 => put_inclusive d0 h s | None => s end).
  set (s2 := fold_left _ _ s1).
  assert (E : leaf_communities_edgelist s2 = leaf_communities_edgelist s1)
    by apply trace_fold_others.
  assert (E1 : leaf_communities_edgelist s1 = leaf_communities_edgelist s) by (subst s1; destruct d; done).
  rewrite length_edge_names.
  destruct (has_cycles h); cbn [negb andb]; [|congruence].
  destruct (Z.of_nat (vcount h) <=? min_vertices)%Z; cbn [andb].
  - destruct (Nat.ltb 1 _); cbn [leaf_communities_edgelist put_leaf]; congruence.
  - destruct d; cbn [leaf_communities_edgelist put_root]; congruence.
Qed.

Lemma call_effect_trace (s : cf_state) (d : option string) (h : graph) (x : string) :
  key_reg_trace (call_effect min_vertices key_regulators s (d, h)) !! x =
  if bool_decide (x ∈ key_regulators /\ x ∈ names h) then Some d else key_reg_trace s !! x.
Proof.
  cbn [call_effect].
  set (s1 := match d with Some d0 => put_inclusive d0 h s | None => s end).
  set (s2 := fold_left _ _ s1).
  assert (E : key_reg_trace s2 !! x =
              if bool_decide (x ∈ key_regulators /\ x ∈ names h) then Some d
              else key_reg_trace s !! x).
  { subst s2. rewrite trace_fold_lookup.
    assert (E1 : key_reg_trace s1 = key_reg_trace s) by (subst s1; destruct d; done).
    rewrite E1. destruct (decide (x ∈ key_regulators /\ x ∈ names h)) as [Hx|Hx].
    - rewrite !bool_decide_eq_true_2; [done|done|]. rewrite key_reg_vertex_names. done.
    - rewrite !bool_decide_eq_false_2; [done|done|]. rewrite key_reg_vertex_names. done. }
  rewrite <- E.
  destruct (negb (has_cycles h)); [done|].
  destruct (Z.of_nat (vcount h) <=? min_vertices)%Z; [destruct (Nat.ltb 1 _)|destruct d]; done.
Qed.

End StepProofs.

Lemma fcr_inclusive_lookup `{IGraphLib} (min_vertices : Z) (key_regulators : list string)
    (fuel m : nat) (g : graph) (d : option string) (t t' : node) (s s' : cf_state)
    (k : string) (h : graph) :
  find_communities_recursive min_vertices key_regulators fuel m g d t s = Ok (t', s') ->
  communities_subgraph_inclusive s' !! k = Some h <->
  In (Some k, h) (calls min_vertices fuel m g d) \/
  ((forall h', ~ In (Some k, h') (calls min_vertices fuel m g d)) /\
   communities_subgraph_inclusive s !! k = Some h).
Proof.
  intros Hrun. rewrite (fcr_state _ _ _ _ _ _ _ _ _ _ Hrun).
  set (cs := calls min_vertices fuel m g d).
  set (W := fun c : option string * graph =>
              if bool_decide (fst c = Some k) then Some (snd c) else None).
  rewrite (fold_call_effect_lookup min_vertices key_regulators
             (fun s0 => communities_subgraph_inclusive s0 !! k) W cs s h).
  2:{ intros s0 [d0 h0]. rewrite call_effect_inclusive. subst W. cbn [fst snd].
      destruct d0 as [d0|].
      - destruct (decide (d0 = k)) as [->|Hne].
        + rewrite lookup_insert_eq, bool_decide_eq_true_2; done.
        + rewrite lookup_insert_ne by done. rewrite bool_decide_eq_false_2; [done|congruence].
      - rewrite bool_decide_eq_false_2; [done|congruence]. }
  rewrite (nodup_fst_last_writer cs W h).
  2:{ apply (calls_lineages min_vertices). }
  2:{ intros c1 c2 v1 v2 _ _. subst W. cbn beta.
      case_bool_decide; [|discriminate]. case_bool_decide; [|discriminate]. congruence. }
  assert (HW : forall c, W c = Some h <-> c = (Some k, h)).
  { intros [d0 h0]. subst W. cbn [fst snd]. case_bool_decide; split; congruence. }
  assert (HN : forall c, W c = None <-> fst c <> Some k).
  { intros [d0 h0]. subst W. cbn [fst snd]. case_bool_decide; split; congruence. }
  split.
  - intros [(c & Hc & Hw)|[Hn Hs]].
    + left. apply HW in Hw. subst c. done.
    + right. split; [|done]. intros h' Hin. apply Hn in Hin. apply HN in Hin. done.
  - intros [Hin|[Hn Hs]].
    + left. exists (Some k, h). split; [done|]. apply HW. done.
    + right. split; [|done]. intros [d0 h0] Hc. apply HN. cbn [fst]. intros ->.
      exact (Hn h0 Hc).
Qed.


Lemma fcr_leaf_lookup `{IGraphLib} (min_vertices : Z) (key_regulators : list string)
    (fuel m : nat) (g : graph) (d : option string) (t t' : node) (s s' : cf_state)
    (k : option string) (el : list (list string)) :
  find_communities_recursive min_vertices key_regulators fuel m g d t s = Ok (t', s') ->
  leaf_communities_edgelist s' !! k = Some el <->
  (exists h, In (k, h) (calls min_vertices fuel m g d) /\
     leaf_community_cond min_vertices h /\ el = edge_names h) \/
  ((forall h, In (k, h) (calls min_vertices fuel m g d) -> ~ leaf_community_cond min_vertices h) /\
   leaf_communities_edgelist s !! k = Some el).
Proof.
  intros Hrun. rewrite (fcr_state _ _ _ _ _ _ _ _ _ _ Hrun).
  set (cs := calls min_vertices fuel m g d).
  set (W := fun c : option string * graph =>
              if bool_decide (fst c = k) && has_cycles (snd c) &&
                 (Z.of_nat (vcount (snd c)) <=? min_vertices)%Z &&
                 Nat.ltb 1 (length (edges (snd c)))
              then Some (edge_names (snd c)) else None).
  assert (Hcond : forall h0, leaf_community_cond min_vertices h0 <->
     has_cycles h0 && (Z.of_nat (vcount h0) <=? min_vertices)%Z && Nat.ltb 1 (length (edges h0)) = true).
  { intros h0. unfold leaf_community_cond. rewrite !andb_true_iff, Z.leb_le, Nat.ltb_lt. tauto. }
  rewrite (fold_call_effect_lookup min_vertices key_regulators
             (fun s0 => leaf_communities_edgelist s0 !! k) W cs s el).
  2:{ intros s0 [d0 h0]. rewrite call_effect_leaf. subst W. cbn [fst snd].
      destruct (has_cycles h0), (Z.of_nat (vcount h0) <=? min_vertices)%Z, (Nat.ltb 1 _);
        cbn [andb]; rewrite ?andb_true_r, ?andb_false_r; try done.
      case_bool_decide as Hk.
      + rewrite Hk, lookup_insert_eq. done.
      + rewrite lookup_insert_ne by congruence. done. }
  rewrite (nodup_fst_last_writer cs W el).
  2:{ apply (calls_lineages min_vertices). }
  2:{ intros [d1 h1] [d2 h2] v1 v2 _ _; subst W; cbn [fst snd].
      case_bool_decide as E1; [|discriminate]. case_bool_decide as E2; [|discriminate]. congruence. }
  assert (HW : forall h0, W (k, h0) = Some el <-> leaf_community_cond min_vertices h0 /\ el = edge_names h0).
  { intros h0. rewrite Hcond. subst W. cbn [fst snd]. rewrite bool_decide_eq_true_2 by done. cbn [andb].
    destruct (has_cycles h0 && _ && _); split; intros Hx; try discriminate.
    - injection Hx as <-. done.
    - destruct Hx as [_ ->]. done.
    - destruct Hx as [Hx _]. discriminate. }
  assert (HN : forall d0 h0, W (d0, h0) = None <-> d0 <> k \/ ~ leaf_community_cond min_vertices h0).
  { intros d0 h0. rewrite Hcond. subst W. cbn [fst snd].
    case_bool_decide; cbn [andb]; [|split; [left; done|done]].
    destruct (has_cycles h0 && _ && _); split; intros Hx; try discriminate; [|right; done|done].
    destruct Hx; contradiction. }
  split.
  - intros [([d0 h0] & Hc & Hw)|[Hn Hs]].
    + left. assert (d0 = k) as ->.
      { subst W. cbn [fst snd] in Hw. case_bool_decide; [done|discriminate]. }
      apply HW in Hw as [Hl ->]. exists h0. done.
    + right. split; [|done]. intros h0 Hin Hl.
      apply Hn, HN in Hin as [Hk|Hk]; contradiction.
  - intros [(h0 & Hin & Hl & ->)|[Hn Hs]].
    + left. exists (k, h0). split; [done|]. apply HW. done.
    + right. split; [|done]. intros [d0 h0] Hin. apply HN.
      destruct (decide (d0 = k)) as [->|Hk]; [right; apply Hn; done|left; done].
Qed.

Lemma fcr_trace_lookup `{IGraphLib} (min_vertices : Z) (key_regulators : list string)
    (fuel m : nat) (g : graph) (d : option string) (t t' : node) (s s' : cf_state)
    (x : string) (v : option string) :
  find_communities_recursive min_vertices key_regulators fuel m g d t s = Ok (t', s') ->
  (x ∉ key_regulators -> key_reg_trace s' !! x = key_reg_trace s !! x) /\
  (x ∈ key_regulators ->
   key_reg_trace s' !! x = Some v <->
   (exists c1 h c2, calls min_vertices fuel m g d = c1 ++ (v, h) :: c2 /\ x ∈ names h /\
      forall d' h', In (d', h') c2 -> x ∉ names h') \/
   ((forall d' h', In (d', h') (calls min_vertices fuel m g d) -> x ∉ names h') /\
    key_reg_trace s !! x = Some v)).
Proof.
  intros Hrun. rewrite (fcr_state _ _ _ _ _ _ _ _ _ _ Hrun).
  set (cs := calls min_vertices fuel m g d). split.
  - intros Hx. clearbody cs. clear Hrun. revert s. induction cs as [|[d0 h0] cs IH]; intros s; [done|].
    cbn [fold_left]. rewrite IH, call_effect_trace, bool_decide_eq_false_2; [done|]. tauto.
  - intros Hx.
    set (W := fun c : option string * graph =>
                if bool_decide (x ∈ names (snd c)) then Some (fst c) else None).
    rewrite (fold_call_effect_lookup min_vertices key_regulators
               (fun s0 => key_reg_trace s0 !! x) W cs s v).
    2:{ intros s0 [d0 h0]. rewrite call_effect_trace. subst W. cbn [fst snd].
        destruct (decide (x ∈ names h0)).
        - rewrite !bool_decide_eq_true_2 by done. done.
        - rewrite !bool_decide_eq_false_2 by tauto. done. }
    assert (HN : forall d0 h0, W (d0, h0) = None <-> x ∉ names h0).
    { intros d0 h0. subst W. cbn [fst snd]. case_bool_decide; split; done. }
    split.
    + intros [(c1 & [d0 h0] & c2 & Heq & Hw & Hn)|[Hn Hs]].
      * left. subst W. cbn [fst snd] in Hw. case_bool_decide; [|discriminate].
        injection Hw as <-. exists c1, h0, c2. split; [done|]. split; [done|].
        intros d' h' Hin. apply (HN d'). apply Hn. done.
      * right. split; [|done]. intros d' h' Hin. apply (HN d'). apply Hn. done.
    + intros [(c1 & h0 & c2 & Heq & Hin & Hn)|[Hn Hs]].
      * left. exists c1, (v, h0), c2. split; [done|]. split.
        -- subst W. cbn [fst snd]. rewrite bool_decide_eq_true_2 by done. done.
        -- intros [d' h'] Hc. apply HN. apply (Hn d'). done.
      * right. split; [|done]. intros [d' h'] Hc. apply HN. apply (Hn d'). done.
Qed.

(** ** The tree built by the recursion *)

Lemma last_seg_aux_no_us (s cur : string) : no_us s -> last_seg_aux s cur = (cur ++ s)%string.
Proof.
  revert cur. induction s as [|c s IH]; intros cur Hs; cbn [last_seg_aux].
  - rewrite string_app_nil_r. done.
  - destruct Hs as [Hc Hs]. destruct (Ascii.eqb_spec c "_"%char); [contradiction|].
    rewrite IH by done. rewrite string_app_assoc. done.
Qed.

Lemma last_seg_aux_sep (a b cur : string) :
  last_seg_aux (a ++ String "_" b) cur = last_seg_aux b ""%string.
Proof.
  revert cur. induction a as [|c a IH]; intros cur; [done|].
  rewrite string_app_cons. cbn [last_seg_aux]. destruct (Ascii.eqb c "_"%char); apply IH.
Qed.

Lemma last_seg_child_lineage (d : option string) (i : nat) :
  last_seg (child_lineage d i) = str_of_nat i.
Proof.
  unfold last_seg. destruct d as [x|]; cbn [child_lineage].
  - change ("_" ++ str_of_nat i)%string with (String "_" (str_of_nat i)).
    rewrite last_seg_aux_sep, last_seg_aux_no_us by apply no_us_str_of_nat. done.
  - rewrite last_seg_aux_no_us by apply no_us_str_of_nat. done.
Qed.

Lemma children_loop_tree
    (recurse : graph -> option string -> node -> cf_state -> result (node * cf_state))
    (Q : nat -> node -> Prop) g d i cs t s t' s' :
  (forall cv j s0 t1 s1,
     recurse (induced g cv) (Some (child_lineage d j)) child_init s0 = Ok (t1, s1) -> Q j t1) ->
  children_loop recurse g d i cs t s = Ok (t', s') ->
  name t' = name t /\ lineage t' = lineage t /\ current_depth t' = current_depth t /\
  exists cs', children t' = children t ++ cs' /\
    forall j c, nth_error cs' j = Some c -> Q (i + j) c.
Proof.
  intros Hrec. revert i t s. induction cs as [|cv cs IH]; intros i t s; cbn [children_loop].
  - intros [= <- _]. do 3 (split; [done|]). exists []. rewrite app_nil_r. split; [done|].
    intros j c Hj. rewrite nth_error_nil in Hj. discriminate.
  - destruct (recurse (induced g cv) _ child_init s) as [[t1 s1]|e] eqn:Er; cbn [bind fst snd];
      [|discriminate].
    intros Hl. destruct (IH _ _ _ Hl) as (Hn & Hli & Hcd & cs' & Hc & Hq).
    cbn [add_child name lineage current_depth children] in *.
    do 3 (split; [done|]). exists (t1 :: cs'). split; [rewrite Hc, <- app_assoc; done|].
    intros [|j] c Hj; cbn in Hj.
    + injection Hj as <-. rewrite Nat.add_0_r. eapply Hrec. exact Er.
    + rewrite Nat.add_succ_r. apply (Hq j c Hj).
Qed.

Section TreeProofs.
Context `{IGraphLib}.
Variable min_vertices : Z.
Variable key_regulators : list string.

Lemma fcr_tree fuel m g d t s t' s' :
  find_communities_recursive min_vertices key_regulators fuel m g d t s = Ok (t', s') ->
  children t = [] ->
  tree_ok d (match d with None => "root"%string | Some l => last_seg l end) t'.
Proof.
  revert m g d t s t' s'. induction fuel as [|fuel IH]; intros m g d t s t' s' Hrun Ht;
    cbn [find_communities_recursive] in Hrun; [discriminate|].
  destruct (find_properties _ _); cbn [bind] in Hrun; [|discriminate].
  destruct (build_key_regs _ _) as [l|]; cbn [bind] in Hrun; [|discriminate].
  set (t0 := fill_node t g d l _) in Hrun.
  assert (H0 : lineage t0 = Some (lineage_str d) /\
               current_depth t0 = Some (count_us (lineage_str d) + 1) /\
               name t0 = Some (match d with None => "root"%string | Some l => last_seg l end) /\
               children t0 = []).
  { subst t0. cbn [fill_node lineage current_depth name children]. destruct d; done. }
  destruct H0 as (Hl & Hcd & Hn & Hc).
  assert (Hleaf : tree_ok d (match d with None => "root"%string | Some l => last_seg l end) t0 /\
                  tree_ok d (match d with None => "root"%string | Some l => last_seg l end) (set_leaf t0)).
  { assert (Hok : forall t1, lineage t1 = lineage t0 -> current_depth t1 = current_depth t0 ->
                   name t1 = name t0 -> children t1 = children t0 ->
                   tree_ok d (match d with None => "root"%string | Some l => last_seg l end) t1).
    { intros t1 E1 E2 E3 E4. constructor; [congruence|congruence|congruence|].
      rewrite E4, Hc. intros j c Hj. rewrite nth_error_nil in Hj. discriminate. }
    split; apply Hok; reflexivity. }
  destruct (negb (has_cycles g)); [injection Hrun as <- _; apply Hleaf|].
  destruct (Z.of_nat (vcount g) <=? min_vertices)%Z.
  { destruct (Nat.ltb 1 _); injection Hrun as <- _; apply Hleaf. }
  destruct (communities m g); cbn [bind] in Hrun; [|discriminate].
  assert (Hrec : forall cv j s0 t1 s1,
             find_communities_recursive min_vertices key_regulators fuel m (induced g cv)
               (Some (child_lineage d j)) child_init s0 = Ok (t1, s1) ->
             tree_ok (Some (child_lineage d j)) (str_of_nat j) t1).
  { intros cv j s0 t1 s1 Hr. rewrite <- (last_seg_child_lineage d j). exact (IH _ _ _ _ _ _ _ Hr eq_refl). }
  destruct (children_loop_tree _ _ _ _ _ _ _ _ _ _ Hrec Hrun) as (Hn' & Hl' & Hcd' & cs' & Hc' & Hq).
  constructor; [congruence|congruence|congruence|].
  rewrite Hc', Hc. cbn [app]. intros j c Hj. exact (Hq j c Hj).
Qed.

End TreeProofs.

(** Extra X9: the tree a run builds from a fresh node.  Started on a node
    without children, a run that succeeds returns a tree in which every node
    has the lineage it was called with (["0"] at the root), the depth
    [lineage.count('_') + 1] and the name ["root"] or the last segment of
    its lineage; the [j]-th child (from 0) of the node at lineage [d] is at
    lineage [child_lineage d (j+1)] and named [str(j+1)]. *)
Theorem run_tree_shape `{IGraphLib} (min_vertices : Z) (key_regulators : list string)
    (fuel m : nat) (g : graph) (d : option string) (t t' : node) (s s' : cf_state) :
  find_communities_recursive min_vertices key_regulators fuel m g d t s = Ok (t', s') ->
  children t = [] ->
  tree_ok d (match d with None => "root"%string | Some l => last_seg l end) t'.
Proof. apply fcr_tree. Qed.


(** Extra X10: [communities_subgraph_inclusive] after a run.  Every call of
    the run has its own lineage, so no entry written by a call is replaced
    by a later call of the same run: after the run, key [k] holds subgraph
    [h] exactly when some call got depth [k] and subgraph [h], or when no
    call got depth [k] and [k] held [h] before. *)
Theorem run_inclusive_subgraphs `{IGraphLib} (min_vertices : Z) (key_regulators : list string)
    (fuel m : nat) (g : graph) (d : option string) (t t' : node) (s s' : cf_state)
    (k : string) (h : graph) :
  find_communities_recursive min_vertices key_regulators fuel m g d t s = Ok (t', s') ->
  communities_subgraph_inclusive s' !! k = Some h <->
  In (Some k, h) (calls min_vertices fuel m g d) \/
  ((forall h', ~ In (Some k, h') (calls min_vertices fuel m g d)) /\
   communities_subgraph_inclusive s !! k = Some h).
Proof. apply fcr_inclusive_lookup. Qed.


(** Extra X12: [leaf_communities_edgelist] after a run.  Key [k] holds the
    edge list [el] exactly when the call at depth [k] got a subgraph [h]
    that has a cycle, at most [min_vertices] vertices and more than one
    edge, and [el] is the edge list of [h] by vertex names; otherwise the
    entry is the one from before the run. *)
Theorem run_leaf_communities `{IGraphLib} (min_vertices : Z) (key_regulators : list string)
    (fuel m : nat) (g : graph) (d : option string) (t t' : node) (s s' : cf_state)
    (k : option string) (el : list (list string)) :
  find_communities_recursive min_vertices key_regulators fuel m g d t s = Ok (t', s') ->
  leaf_communities_edgelist s' !! k = Some el <->
  (exists h, In (k, h) (calls min_vertices fuel m g d) /\
     leaf_community_cond min_vertices h /\ el = edge_names h) \/
  ((forall h, In (k, h) (calls min_vertices fuel m g d) -> ~ leaf_community_cond min_vertices h) /\
   leaf_communities_edgelist s !! k = Some el).
Proof. apply fcr_leaf_lookup. Qed.


(** ** [parse], [genrate_edgelist] and [write_leaf_networks] *)

Lemma parse_ok_run `{IGraphLib} (obj_min : Z) (s0 : cf_state) (g : graph)
    (minv : pyval) (w : Z) (cf : pyval) (t : node) (s : cf_state) :
  parse obj_min s0 (Some g) minv (PyInt w) cf = Ok (t, s) ->
  exists a, find_communities_recursive (match minv with PyInt z => z | _ => obj_min end)
    (map (vname g) (key_regulator_ids g w)) (S (vcount g)) (cf_method cf) g None
    (set_cf_algo root_init a) (parse_start s0 (map (vname g) (key_regulator_ids g w))) = Ok (t, s).
Proof.
  unfold parse, parse_run, parse_start, cf_method. intros Hp.
  destruct cf as [| | a |]; try (eexists; exact Hp).
  case_bool_decide as E1; [subst a; eexists; exact Hp|].
  case_bool_decide as E2; [eexists; exact Hp|discriminate].
Qed.

Lemma calls_root_first `{IGraphLib} (min_vertices : Z) (fuel m : nat) (g : graph)
    (c : option string * graph) :
  In c (calls min_vertices (S fuel) m g None) -> fst c = None -> c = (None, g).
Proof.
  intros Hc Hn. destruct (calls_lineages min_vertices (S fuel) m g None) as [Hnd _].
  cbn [calls map] in Hnd, Hc. destruct Hc as [<-|Hc]; [done|]. exfalso.
  apply List.NoDup_cons_iff in Hnd as [Hnotin _]. cbn [fst] in Hnotin.
  apply Hnotin. apply in_map_iff. exists c. split; [exact Hn|exact Hc].
Qed.

Lemma last_in_split {A} (P : A -> Prop) (dec : forall x, Decision (P x)) (l : list A) :
  (exists x, In x l /\ P x) ->
  exists l1 x l2, l = l1 ++ x :: l2 /\ P x /\ forall y, In y l2 -> ~ P y.
Proof.
  induction l as [|z l IH] using rev_ind; intros (x & Hx & Px); [destruct Hx|].
  destruct (decide (P z)) as [Pz|Pz].
  - exists l, z, []. split; [done|]. split; [done|]. intros ? [].
  - apply in_app_or in Hx as [Hx|[<-|[]]]; [|contradiction].
    destruct IH as (l1 & y & l2 & -> & Py & Hn); [eauto|].
    exists l1, y, (l2 ++ [z]). split; [rewrite <- app_assoc; done|]. split; [done|].
    intros y' Hy'. apply in_app_or in Hy' as [Hy'|[<-|[]]]; auto.
Qed.

Lemma trace_start_lookup (kr : list string) (x : string) :
  fold_left (fun m k => <[k := Some ""%string]> m) kr (∅ : gmap string (option string)) !! x =
  if bool_decide (x ∈ kr) then Some (Some ""%string) else None.
Proof.
  assert (Hgen : forall (m0 : gmap string (option string)),
    fold_left (fun m k => <[k := Some ""%string]> m) kr m0 !! x =
    if bool_decide (x ∈ kr) then Some (Some ""%string) else m0 !! x).
  { induction kr as [|k kr IH]; intros m0; cbn [fold_left].
    - rewrite bool_decide_eq_false_2; [done|]. apply not_elem_of_nil.
    - rewrite IH. destruct (decide (x ∈ kr)) as [Hx|Hx].
      + rewrite !bool_decide_eq_true_2; [done|apply elem_of_cons; right; done|done].
      + rewrite (bool_decide_eq_false_2 (x ∈ kr)) by done.
        destruct (decide (x = k)) as [->|Hne].
        * rewrite lookup_insert_eq, bool_decide_eq_true_2; [done|]. apply elem_of_cons. left. done.
        * rewrite lookup_insert_ne by congruence. rewrite bool_decide_eq_false_2; [done|].
          rewrite elem_of_cons. intros [?|?]; contradiction. }
  rewrite Hgen. destruct (bool_decide _); done.
Qed.

Lemma key_regulator_in_names (g : graph) (w : Z) (x : string) :
  x ∈ map (vname g) (key_regulator_ids g w) -> x ∈ names g.
Proof.
  rewrite list_elem_of_In, in_map_iff. intros (i & <- & Hi).
  apply in_names_vname. exists i. split; [|done].
  unfold key_regulator_ids, py_slice_from in Hi. apply in_skipn_in in Hi.
  assert (length (degrees g) = vcount g) as Hlen
    by (unfold degrees; rewrite length_map, length_seq; done).
  rewrite Hlen in Hi.
  destruct (sorted_by_spec (fun i => nth i (degrees g) 0) (seq 0 (vcount g)) [])
    as [_ Hp]; [constructor | apply seq_strongly_sorted | done |].
  cbn [app] in Hp. fold (sorted_by (fun i => nth i (degrees g) 0) (seq 0 (vcount g))) in Hp.
  apply (Permutation_in _ Hp), in_seq in Hi. lia.
Qed.

Lemma result_map_ok {A B} (f : A -> result B) (l : list A) (ys : list B) :
  result_map f l = Ok ys ->
  length ys = length l /\ forall y, In y ys -> exists x, In x l /\ f x = Ok y.
Proof.
  revert ys. induction l as [|x l IH]; intros ys; cbn [result_map].
  - intros [= <-]. split; [done|intros ? []].
  - destruct (f x) as [y|e] eqn:Ef; cbn [bind]; [|discriminate].
    destruct (result_map f l) as [ys'|e] eqn:Er; cbn [bind]; [|discriminate].
    intros [= <-]. destruct (IH ys' eq_refl) as [Hl Hin]. split; [cbn; lia|].
    intros y' [<-|Hy]; [exists x; split; [left|]; done|].
    destruct (Hin y' Hy) as (x' & Hx' & Ef'). exists x'. split; [right|]; done.
Qed.

Lemma result_map_all_ok {A B} (f : A -> result B) (l : list A) :
  (forall x, In x l -> exists y, f x = Ok y) -> exists ys, result_map f l = Ok ys.
Proof.
  induction l as [|x l IH]; intros Hall; cbn [result_map]; [eexists; done|].
  destruct (Hall x (or_introl eq_refl)) as [y ->]. cbn [bind].
  destruct IH as [ys ->]; [intros; apply Hall; right; done|]. eexists. done.
Qed.

Lemma result_map_err {A B} (f : A -> result B) (l : list A) (e : py_error) :
  result_map f l = Err e -> exists x, In x l /\ f x = Err e.
Proof.
  induction l as [|x l IH]; cbn [result_map]; [discriminate|].
  destruct (f x) as [y|e'] eqn:Ef; cbn [bind].
  - destruct (result_map f l) eqn:Er; cbn [bind]; [discriminate|].
    intros [= ->]. destruct (IH eq_refl) as (x' & ? & ?). exists x'. split; [right|]; done.
  - intros [= ->]. exists x. split; [left|]; done.
Qed.

Lemma result_map_err_intro {A B} (f : A -> result B) (l : list A) (e : py_error) :
  (forall x, In x l -> (exists y, f x = Ok y) \/ f x = Err e) ->
  (exists x, In x l /\ f x = Err e) -> result_map f l = Err e.
Proof.
  induction l as [|x l IH]; intros Hall (x0 & Hx0 & Ef0); cbn [result_map]; [destruct Hx0|].
  destruct (Hall x (or_introl eq_refl)) as [[y Ey]|Ey]; rewrite Ey; cbn [bind]; [|done].
  destruct Hx0 as [<-|Hx0]; [congruence|].
  rewrite IH; [done| |eauto]. intros; apply Hall; right; done.
Qed.

Lemma tsv_lines_edge_names (h : graph) : exists c, tsv_lines (edge_names h) = Ok c.
Proof.
  unfold edge_names. induction (edges h) as [|[a b] es IH]; cbn [map tsv_lines]; [eexists; done|].
  cbn [nth_error]. destruct IH as [c ->]. cbn [bind]. eexists. done.
Qed.

Lemma gen_loop_nothing (graph : option graph) (items : list (option string * list (list string))) :
  fst (gen_loop graph items) = [] /\ (snd (gen_loop graph items) = None <-> items = []).
Proof.
  destruct items as [|[order subgraph] rest]; cbn [gen_loop]; [done|].
  destruct (graph_vs0 graph); cbn [list_get_edgelist fst snd]; split; try done; split; discriminate.
Qed.

(** After a successful [parse], the keys of the leaf dictionary are the
    lineages of the calls whose subgraph meets the leaf condition, every
    lineage key among them is a key of the inclusive dictionary, and the key
    [None] is there exactly when the whole graph meets the leaf condition. *)
Lemma parse_leaf_keys `{IGraphLib} (obj_min : Z) (s0 : cf_state) (g : graph)
    (minv : pyval) (w : Z) (cf : pyval) (t : node) (s : cf_state) :
  parse obj_min s0 (Some g) minv (PyInt w) cf = Ok (t, s) ->
  (forall k el, leaf_communities_edgelist s !! k = Some el ->
     el = match k with None => edge_names g | Some _ => el end /\
     exists h, el = edge_names h /\
       match k with
       | None => leaf_community_cond (match minv with PyInt z => z | _ => obj_min end) g
       | Some k' => communities_subgraph_inclusive s !! k' = Some h
       end) /\
  (leaf_community_cond (match minv with PyInt z => z | _ => obj_min end) g ->
   leaf_communities_edgelist s !! None = Some (edge_names g)).
Proof.
  intros Hp. destruct (parse_ok_run _ _ _ _ _ _ _ _ Hp) as [a Hrun].
  set (mv := match minv with PyInt z => z | _ => obj_min end) in *.
  set (kr := map (vname g) (key_regulator_ids g w)) in *.
  split.
  - intros k el Hk. apply (fcr_leaf_lookup _ _ _ _ _ _ _ _ _ _ _ _ Hrun) in Hk.
    destruct Hk as [(h & Hin & Hl & ->)|[_ Hs]]; [|cbn in Hs; rewrite lookup_empty in Hs; discriminate].
    destruct k as [k'|].
    + split; [done|]. exists h. split; [done|].
      apply (fcr_inclusive_lookup _ _ _ _ _ _ _ _ _ _ _ _ Hrun). left. exact Hin.
    + apply calls_root_first in Hin as [= ->]; [|done]. split; [done|]. exists g. done.
  - intros Hl. apply (fcr_leaf_lookup _ _ _ _ _ _ _ _ _ _ _ _ Hrun). left.
    exists g. split; [|done]. cbn [calls]. left. done.
Qed.


(** Extra X16: [genrate_edgelist] yields nothing.  The generator never
    produces an item: its loop body raises ([IndexError] or
    [AttributeError]) on the first item, since a leaf dictionary value is a
    list, which has no [get_edgelist].  It ends without an error exactly
    when the leaf dictionary was empty and the [parse()] it then runs
    succeeds with an empty leaf dictionary. *)
Theorem genrate_edgelist_yields_nothing `{IGraphLib} (obj_min : Z) (s0 : cf_state)
    (graph : option graph) :
  fst (genrate_edgelist obj_min s0 graph) = [] /\
  (snd (genrate_edgelist obj_min s0 graph) = None <->
   leaf_communities_edgelist s0 = ∅ /\
   exists t s, parse obj_min s0 graph PyNone (PyInt 50) PyNone = Ok (t, s) /\
               leaf_communities_edgelist s = ∅).
Proof.
  unfold genrate_edgelist. case_bool_decide as E0.
  - destruct (parse obj_min s0 graph PyNone (PyInt 50) PyNone) as [[t s]|e] eqn:Ep.
    + destruct (gen_loop_nothing graph (map_to_list (leaf_communities_edgelist s))) as [Hf Hs].
      split; [done|]. rewrite Hs, map_to_list_empty_iff. split.
      * intros Hl. split; [done|]. exists t, s. done.
      * intros (_ & t' & s' & [= <- <-] & Hl). done.
    + cbn [fst snd]. split; [done|]. split; [discriminate|].
      intros (_ & t' & s' & Hp & _). discriminate.
  - destruct (gen_loop_nothing graph (map_to_list (leaf_communities_edgelist s0))) as [Hf Hs].
    split; [done|]. rewrite Hs, map_to_list_empty_iff. split; [intros; contradiction|].
    intros [? _]. contradiction.
Qed.


(** Extra X15: after a successful [parse], [write_leaf_networks] (any base
    directory and format) raises [KeyError] exactly when the whole graph is
    itself recorded as a leaf community (it has a cycle, at most
    [subgraph_min_vertices] vertices and more than one edge): its key
    [None] has no entry in [communities_subgraph_inclusive].  Otherwise it
    completes. *)
Theorem parse_write_leaf_networks_key_error `{IGraphLib} (obj_min : Z) (s0 : cf_state)
    (g : graph) (minv : pyval) (w : Z) (cf : pyval) (t : node) (s : cf_state)
    (output_format : string) (format : option string) :
  parse obj_min s0 (Some g) minv (PyInt w) cf = Ok (t, s) ->
  (write_leaf_networks s output_format format = Err KeyError <->
   leaf_community_cond (match minv with PyInt z => z | _ => obj_min end) g) /\
  (~ leaf_community_cond (match minv with PyInt z => z | _ => obj_min end) g ->
   exists evs, write_leaf_networks s output_format format = Ok evs).
Proof.
  intros Hp. destruct (parse_leaf_keys _ _ _ _ _ _ _ _ Hp) as [HK HN].
  set (mv := match minv with PyInt z => z | _ => obj_min end) in *.
  assert (Hitem : forall k el, In (k, el) (map_to_list (leaf_communities_edgelist s)) ->
                    leaf_communities_edgelist s !! k = Some el).
  { intros k el Hin. apply elem_of_map_to_list, list_elem_of_In. done. }
  unfold write_leaf_networks.
  set (items := map_to_list (leaf_communities_edgelist s)) in *.
  destruct (result_map_all_ok (fun '(k, el) => let! c := tsv_lines el in
               Ok (WriteTsv ("leaf_nodes_edgelist/" ++ py_str_key k ++ ".tsv")%string c)) items)
    as [tsvs Et].
  { intros [k el] Hin. destruct (HK _ _ (Hitem _ _ Hin)) as [_ (h & -> & _)].
    destruct (tsv_lines_edge_names h) as [c ->]. cbn [bind]. eexists. done. }
  rewrite Et. destruct (bool_decide _); cbn [bind].
  all: set (fs := fun '(k, _) =>
               match k with
               | None => Err KeyError
               | Some k' =>
                   match communities_subgraph_inclusive s !! k' with
                   | Some h => Ok (WriteSvg ("leaf_nodes_svg_render/" ++ k' ++ ".svg")%string h)
                   | None => Err KeyError
                   end
               end : result fs_event).
  all: assert (Hnone : ~ leaf_community_cond mv g -> exists svgs, result_map fs items = Ok svgs);
         [intros Hc; apply result_map_all_ok; intros [[k'|] el] Hin;
          destruct (HK _ _ (Hitem _ _ Hin)) as [_ (h & _ & Hh)];
          [subst fs; cbn beta iota; rewrite Hh; eexists; done|contradiction]|].
  all: assert (Hyes : leaf_community_cond mv g -> result_map fs items = Err KeyError);
         [intros Hc; apply result_map_err_intro;
          [intros [[k'|] el] Hin; subst fs; cbn beta iota; [|right; done];
           destruct (communities_subgraph_inclusive s !! k'); [left; eexists|right]; done
          |exists (None, edge_names g); split; [apply list_elem_of_In, elem_of_map_to_list; auto|done]]|].
  all: split; [split|].
  all: try (intros Hc; destruct (result_map fs items) as [svgs|e] eqn:Es; cbn [bind];
            [eexists; done|destruct (Hnone Hc) as [? ?]; congruence]).
  all: try (intros Hc; rewrite (Hyes Hc); done).
  all: intros He;
       destruct (decide (has_cycles g = true /\ (Z.of_nat (vcount g) <= mv)%Z /\ 1 < length (edges g)))
         as [Hc|Hc]; [exact Hc|];
       destruct (Hnone Hc) as [svgs Es]; rewrite Es in He; discriminate.
Qed.

(** Extra X14: the key-regulator trace after a successful [parse].  Its keys
    are exactly the selected key regulators, and the entry of each is the
    lineage of the last call of the run (in call order) whose subgraph has
    a vertex of that name; the placeholder [""] set before the run never
    survives, since the root call sees the whole graph. *)
Theorem parse_key_reg_trace `{IGraphLib} (obj_min : Z) (s0 : cf_state) (g : graph)
    (minv : pyval) (w : Z) (cf : pyval) (t : node) (s : cf_state) (x : string) :
  parse obj_min s0 (Some g) minv (PyInt w) cf = Ok (t, s) ->
  (x ∉ map (vname g) (key_regulator_ids g w) -> key_reg_trace s !! x = None) /\
  (x ∈ map (vname g) (key_regulator_ids g w) ->
   exists c1 v h c2,
     calls (match minv with PyInt z => z | _ => obj_min end) (S (vcount g)) (cf_method cf) g None
       = c1 ++ (v, h) :: c2 /\
     x ∈ names h /\ (forall d' h', In (d', h') c2 -> x ∉ names h') /\
     key_reg_trace s !! x = Some v).
Proof.
  intros Hp. destruct (parse_ok_run _ _ _ _ _ _ _ _ Hp) as [a Hrun].
  set (mv := match minv with PyInt z => z | _ => obj_min end) in *.
  set (kr := map (vname g) (key_regulator_ids g w)) in *.
  split.
  - intros Hx. destruct (fcr_trace_lookup _ _ _ _ _ _ _ _ _ _ x None Hrun) as [Hnot _].
    rewrite (Hnot Hx). unfold parse_start. cbn [key_reg_trace].
    rewrite trace_start_lookup, bool_decide_eq_false_2; done.
  - intros Hx.
    destruct (last_in_split (fun c : option string * graph => x ∈ names (snd c)) _
                (calls mv (S (vcount g)) (cf_method cf) g None))
      as (c1 & [v h] & c2 & Heq & Hin & Hn).
    { exists (None, g). split; [cbn [calls]; left; done|]. apply key_regulator_in_names with w. exact Hx. }
    exists c1, v, h, c2. split; [done|]. split; [done|].
    assert (Hn' : forall d' h', In (d', h') c2 -> x ∉ names h')
      by (intros d' h' Hin'; exact (Hn _ Hin')).
    split; [done|].
    destruct (fcr_trace_lookup _ _ _ _ _ _ _ _ _ _ x v Hrun) as [_ Hin2].
    apply (Hin2 Hx). left. exists c1, h, c2. done.
Qed.

(** ** Witnesses of the further properties *)

Lemma lib_halves_lengths (g : graph) : @lib_lengths_ok lib_halves g.
Proof. unfold lib_lengths_ok. cbn [evcent betweenness closeness transitivity_local_undirected lib_halves].
  rewrite !repeat_length. done. Qed.

Lemma has_cycles_self_loop_witness : In (0, 0) (edges g_loop) /\ has_cycles g_loop = true.
Proof. split; [left; reflexivity|]. apply (has_cycles_self_loop g_loop 0). left. reflexivity. Defined.

Lemma has_cycles_false_forest_bound_witness :
  edges_in_range g_path /\ has_cycles g_path = false /\
  length (nx_edges (edges g_path)) <= vcount g_path - 1.
Proof.
  assert (Hr : edges_in_range g_path).
  { intros a b [[= <- <-]|[[= <- <-]|[]]]; cbn; lia. }
  assert (Hc : has_cycles g_path = false) by reflexivity.
  split; [exact Hr|]. split; [exact Hc|]. exact (has_cycles_false_forest_bound g_path Hr Hc).
Defined.

Lemma find_properties_keys_witness :
  @find_properties lib_halves g_path [1; 0] = Ok props_path /\
  forall i, is_Some (props_path !! i) <-> i ∈ [1; 0].
Proof.
  assert (Hrun : @find_properties lib_halves g_path [1; 0] = Ok props_path)
    by (vm_compute; reflexivity).
  split; [exact Hrun|]. exact (@find_properties_keys lib_halves g_path [1; 0] props_path Hrun).
Defined.

Lemma find_properties_isolated_vertex_witness :
  @lib_lengths_ok lib_halves g_isolated /\ 3 <= vcount g_isolated /\
  (forall v, In v [0; 2] -> v < vcount g_isolated) /\
  (@find_properties lib_halves g_isolated [0; 2] = Err ZeroDivisionError <->
     exists v, In v [0; 2] /\ degree g_isolated v = 0) /\
  ((forall v, In v [0; 2] -> degree g_isolated v <> 0) ->
     exists out, @find_properties lib_halves g_isolated [0; 2] = Ok out).
Proof.
  assert (Hl := lib_halves_lengths g_isolated).
  assert (Hn : 3 <= vcount g_isolated) by (cbn; lia).
  assert (Hv : forall v, In v [0; 2] -> v < vcount g_isolated)
    by (intros v [<-|[<-|[]]]; cbn; lia).
  split; [exact Hl|]. split; [exact Hn|]. split; [exact Hv|].
  exact (@find_properties_isolated_vertex lib_halves g_isolated [0; 2] Hl Hn Hv).
Defined.

Lemma find_properties_neighbourhood_connectivity_witness :
  3 <= vcount g_path /\ @find_properties lib_halves g_path [1; 0] = Ok props_path /\
  1 ∈ [1; 0] /\
  exists vals, props_path !! 1 = Some vals /\ length vals = 7 /\ degree g_path 1 <> 0 /\
    nth_error vals 5 = Some (Q_of_nat (sum_nat (map (degree g_path) (neighbors g_path 1))) /
                             Q_of_nat (degree g_path 1))%Q.
Proof.
  assert (Hrun : @find_properties lib_halves g_path [1; 0] = Ok props_path)
    by (vm_compute; reflexivity).
  assert (Hin : 1 ∈ [1; 0]) by (left).
  assert (Hn : 3 <= vcount g_path) by (cbn; lia).
  split; [exact Hn|]. split; [exact Hrun|]. split; [exact Hin|].
  exact (@find_properties_neighbourhood_connectivity lib_halves g_path [1; 0] props_path 1 Hn Hrun Hin).
Defined.

Lemma isolated_key_regulator_aborts_witness :
  @lib_lengths_ok lib_halves g_isolated /\ 3 <= vcount g_isolated /\ 2 < vcount g_isolated /\
  vname g_isolated 2 ∈ ["c"%string] /\ degree g_isolated 2 = 0 /\
  @find_communities_recursive lib_halves 3 ["c"%string] (S 5) 0 g_isolated None root_init s_empty =
    Err ZeroDivisionError.
Proof.
  assert (Hl := lib_halves_lengths g_isolated).
  assert (Hn : 3 <= vcount g_isolated) by (cbn; lia).
  assert (Hv : 2 < vcount g_isolated) by (cbn; lia).
  assert (Hk : vname g_isolated 2 ∈ ["c"%string]) by (apply list_elem_of_In; left; reflexivity).
  assert (Hd : degree g_isolated 2 = 0) by reflexivity.
  split; [exact Hl|]. split; [exact Hn|]. split; [exact Hv|]. split; [exact Hk|]. split; [exact Hd|].
  exact (@isolated_key_regulator_aborts lib_halves 3 ["c"%string] 5 0 g_isolated None root_init s_empty 2
           Hl Hn Hv Hk Hd).
Defined.

Lemma parse_isolated_vertex_aborts_witness :
  @lib_lengths_ok lib_halves g_isolated /\ 3 <= vcount g_isolated /\
  (Z.of_nat (vcount g_isolated) <= 50)%Z /\ 2 < vcount g_isolated /\ degree g_isolated 2 = 0 /\
  (PyNone = PyStr "louvain" \/ PyNone = PyStr "leading_eigenvector" \/ forall a, PyNone <> PyStr a)%string /\
  @parse lib_halves 3 s_empty (Some g_isolated) PyNone (PyInt 50) PyNone = Err ZeroDivisionError.
Proof.
  assert (Hl := lib_halves_lengths g_isolated).
  assert (Hn : 3 <= vcount g_isolated) by (cbn; lia).
  assert (Hw : (Z.of_nat (vcount g_isolated) <= 50)%Z) by (cbn; lia).
  assert (Hv : 2 < vcount g_isolated) by (cbn; lia).
  assert (Hd : degree g_isolated 2 = 0) by reflexivity.
  assert (Hc : (PyNone = PyStr "louvain" \/ PyNone = PyStr "leading_eigenvector" \/
                forall a, PyNone <> PyStr a)%string) by (right; right; intros a; discriminate).
  do 5 (split; [assumption|]). split; [exact Hc|].
  exact (@parse_isolated_vertex_aborts lib_halves 3 s_empty g_isolated PyNone PyNone 50 2
           Hl Hn Hw Hv Hd Hc).
Defined.

Lemma run_two_triangles_ok :
  run_two_triangles = Ok (run_two_triangles_tree, run_two_triangles_state).
Proof. vm_compute. reflexivity. Qed.

Lemma parse_two_triangles_ok :
  parse_two_triangles = Ok (parse_two_triangles_tree, parse_two_triangles_state).
Proof. vm_compute. reflexivity. Qed.

Lemma run_tree_shape_witness :
  run_two_triangles = Ok (run_two_triangles_tree, run_two_triangles_state) /\
  children root_init = [] /\ tree_ok None "root"%string run_two_triangles_tree.
Proof.
  split; [exact run_two_triangles_ok|]. split; [reflexivity|].
  exact (@run_tree_shape lib_halves 3 [] 7 0 g_two_triangles None root_init
           run_two_triangles_tree s_empty run_two_triangles_state run_two_triangles_ok eq_refl).
Defined.

Lemma run_inclusive_subgraphs_witness :
  run_two_triangles = Ok (run_two_triangles_tree, run_two_triangles_state) /\
  forall k h,
    communities_subgraph_inclusive run_two_triangles_state !! k = Some h <->
    In (Some k, h) (@calls lib_halves 3 7 0 g_two_triangles None) \/
    ((forall h', ~ In (Some k, h') (@calls lib_halves 3 7 0 g_two_triangles None)) /\
     communities_subgraph_inclusive s_empty !! k = Some h).
Proof.
  split; [exact run_two_triangles_ok|]. intros k h.
  exact (@run_inclusive_subgraphs lib_halves 3 [] 7 0 g_two_triangles None root_init
           run_two_triangles_tree s_empty run_two_triangles_state k h run_two_triangles_ok).
Defined.


Lemma run_leaf_communities_witness :
  run_two_triangles = Ok (run_two_triangles_tree, run_two_triangles_state) /\
  forall k el,
    leaf_communities_edgelist run_two_triangles_state !! k = Some el <->
    (exists h, In (k, h) (@calls lib_halves 3 7 0 g_two_triangles None) /\
       leaf_community_cond 3 h /\ el = edge_names h) \/
    ((forall h, In (k, h) (@calls lib_halves 3 7 0 g_two_triangles None) ->
        ~ leaf_community_cond 3 h) /\
     leaf_communities_edgelist s_empty !! k = Some el).
Proof.
  split; [exact run_two_triangles_ok|]. intros k el.
  exact (@run_leaf_communities lib_halves 3 [] 7 0 g_two_triangles None root_init
           run_two_triangles_tree s_empty run_two_triangles_state k el run_two_triangles_ok).
Defined.



Lemma parse_write_leaf_networks_key_error_witness :
  parse_two_triangles = Ok (parse_two_triangles_tree, parse_two_triangles_state) /\
  (write_leaf_networks parse_two_triangles_state "edgelist" None = Err KeyError <->
   leaf_community_cond 3 g_two_triangles) /\
  (~ leaf_community_cond 3 g_two_triangles ->
   exists evs, write_leaf_networks parse_two_triangles_state "edgelist" None = Ok evs).
Proof.
  split; [exact parse_two_triangles_ok|].
  exact (@parse_write_leaf_networks_key_error lib_halves 3 s_empty g_two_triangles PyNone 2 PyNone
           parse_two_triangles_tree parse_two_triangles_state "edgelist" None parse_two_triangles_ok).
Defined.

Lemma parse_key_reg_trace_witness :
  parse_two_triangles = Ok (parse_two_triangles_tree, parse_two_triangles_state) /\
  forall x,
  (x ∉ map (vname g_two_triangles) (key_regulator_ids g_two_triangles 2) ->
   key_reg_trace parse_two_triangles_state !! x = None) /\
  (x ∈ map (vname g_two_triangles) (key_regulator_ids g_two_triangles 2) ->
   exists c1 v h c2,
     @calls lib_halves 3 (S (vcount g_two_triangles)) (cf_method PyNone) g_two_triangles None
       = c1 ++ (v, h) :: c2 /\
     x ∈ names h /\ (forall d' h', In (d', h') c2 -> x ∉ names h') /\
     key_reg_trace parse_two_triangles_state !! x = Some v).
Proof.
  split; [exact parse_two_triangles_ok|]. intros x.
  exact (@parse_key_reg_trace lib_halves 3 s_empty g_two_triangles PyNone 2 PyNone
           parse_two_triangles_tree parse_two_triangles_state x parse_two_triangles_ok).
Defined.

(** ** [write_subgraphs] *)

Lemma Q_of_nat_neq_0 (m : nat) : 0 < m -> Qeq_bool (Q_of_nat m) 0 = false.
Proof.
  intros Hm. unfold Qeq_bool, Q_of_nat, inject_Z. cbn. apply Z.eqb_neq. lia.
Qed.

Lemma Q_of_nat_half_neq_0 (m : nat) : 0 < m -> Qeq_bool (Q_of_nat m / 2) 0 = false.
Proof.
  intros Hm. unfold Qeq_bool, Qdiv, Qmult, Qinv, Q_of_nat, inject_Z. cbn. apply Z.eqb_neq. lia.
Qed.

Lemma py_div_ok (a b : Q) : Qeq_bool b 0 = false -> py_div a b = Ok (a / b)%Q.
Proof. intros Hb. unfold py_div. rewrite Hb. done. Qed.

Lemma result_map_in {A B} (f : A -> result B) (l : list A) (ys : list B) (x : A) :
  result_map f l = Ok ys -> In x l -> exists y, f x = Ok y /\ In y ys.
Proof.
  revert ys. induction l as [|x' l IH]; intros ys; cbn [result_map]; [intros _ []|].
  destruct (f x') as [y|e] eqn:Ef; cbn [bind]; [|discriminate].
  destruct (result_map f l) as [ys'|e] eqn:Er; cbn [bind]; [|discriminate].
  intros [= <-] [<-|Hx]; [exists y; split; [|left]; done|].
  destruct (IH ys' eq_refl Hx) as (y' & ? & ?). exists y'. split; [|right]; done.
Qed.

Lemma insert_fst_perm (x : nat * Q) (l : list (nat * Q)) : Permutation (insert_fst x l) (x :: l).
Proof.
  induction l as [|y l IH]; cbn [insert_fst]; [done|].
  destruct (Nat.ltb (fst x) (fst y)); [done|].
  rewrite IH. apply perm_swap.
Qed.

Lemma sort_fst_perm_aux (l acc : list (nat * Q)) :
  Permutation (fold_left (fun acc x => insert_fst x acc) l acc) (l ++ acc).
Proof.
  revert acc. induction l as [|x l IH]; intros acc; cbn [fold_left app]; [done|].
  rewrite IH, insert_fst_perm. symmetry. apply Permutation_middle.
Qed.

Lemma sort_fst_perm (l : list (nat * Q)) : Permutation (sort_fst l) l.
Proof. unfold sort_fst. rewrite sort_fst_perm_aux, app_nil_r. done. Qed.

Definition fst_le (a b : nat * Q) : Prop := fst a <= fst b.

Lemma insert_fst_hd (x y : nat * Q) (l : list (nat * Q)) :
  HdRel fst_le y l -> fst_le y x -> HdRel fst_le y (insert_fst x l).
Proof.
  intros Hl Hyx. destruct l as [|z l]; cbn [insert_fst]; [constructor; done|].
  destruct (Nat.ltb (fst x) (fst z)); constructor; [done|]. inversion Hl; done.
Qed.

Lemma insert_fst_sorted (x : nat * Q) (l : list (nat * Q)) :
  Sorted fst_le l -> Sorted fst_le (insert_fst x l).
Proof.
  induction l as [|y l IH]; intros Hs; cbn [insert_fst]; [repeat constructor|].
  destruct (Nat.ltb (fst x) (fst y)) eqn:Hlt.
  - constructor; [done|]. constructor. apply Nat.ltb_lt in Hlt. unfold fst_le. lia.
  - apply Nat.ltb_ge in Hlt. inversion Hs as [|? ? Hs' Hhd]; subst.
    constructor; [apply IH; done|]. apply insert_fst_hd; [done|]. unfold fst_le. lia.
Qed.

Lemma sort_fst_sorted (l : list (nat * Q)) : Sorted fst_le (sort_fst l).
Proof.
  unfold sort_fst. assert (Hacc : Sorted fst_le (@nil (nat * Q))) by constructor.
  revert Hacc. generalize (@nil (nat * Q)).
  induction l as [|x l IH]; intros acc Hacc; cbn [fold_left]; [done|].
  apply IH, insert_fst_sorted. done.
Qed.

Lemma map_fst_combine {A B} (l1 : list A) (l2 : list B) :
  length l1 <= length l2 -> map fst (combine l1 l2) = l1.
Proof.
  revert l2. induction l1 as [|a l1 IH]; intros l2 Hl; [done|].
  destruct l2 as [|b l2]; cbn in *; [lia|]. rewrite IH; [done|lia].
Qed.

Lemma length_degrees (g : graph) : length (degrees g) = vcount g.
Proof. unfold degrees. rewrite length_map, length_seq. done. Qed.

Section SubgraphProofs.
Context `{IGraphLib}.

Lemma subgraph_props_ok (g : graph) :
  3 <= vcount g ->
  exists props, subgraph_props g = Ok props /\ length props = 6 /\
    forall rows, In rows props ->
      exists vals, rows = sort_fst (combine (degrees g) vals) /\
                   (lib_lengths_ok g -> length vals = vcount g).
Proof.
  intros Hn. unfold subgraph_props.
  assert (Hd : Qeq_bool (Q_of_nat ((vcount g - 1) * (vcount g - 2)) / 2) 0 = false)
    by (apply Q_of_nat_half_neq_0; apply Nat.mul_pos_pos; lia).
  destruct (result_map_all_ok (fun i => py_div i (Q_of_nat ((vcount g - 1) * (vcount g - 2)) / 2))
              (evcent g)) as [ev Hev]; [intros; eexists; apply py_div_ok; done|].
  rewrite Hev. cbn [bind].
  destruct (result_map_all_ok (fun i => py_div i (Q_of_nat ((vcount g - 1) * (vcount g - 2)) / 2))
              (betweenness g)) as [bt Hbt]; [intros; eexists; apply py_div_ok; done|].
  rewrite Hbt. cbn [bind].
  destruct (result_map_all_ok (fun i => py_div (Q_of_nat (py_count (degrees g) i)) (Q_of_nat (vcount g)))
              (degrees g)) as [pd Hpd]; [intros; eexists; apply py_div_ok, Q_of_nat_neq_0; lia|].
  rewrite Hpd. cbn [bind].
  match goal with
  | |- context [result_map ?f (seq 0 (vcount g))] =>
      destruct (result_map_all_ok f (seq 0 (vcount g))) as [nc Hnc]
  end.
  { intros v _. cbv beta zeta. destruct (Nat.eqb (length (neighbors g v)) 0) eqn:Hz; [eexists; done|].
    apply Nat.eqb_neq in Hz. eexists. apply py_div_ok, Q_of_nat_neq_0. lia. }
  rewrite Hnc. cbn [bind].
  destruct (result_map_ok _ _ _ Hev) as [Lev _]. destruct (result_map_ok _ _ _ Hbt) as [Lbt _].
  destruct (result_map_ok _ _ _ Hpd) as [Lpd _]. destruct (result_map_ok _ _ _ Hnc) as [Lnc _].
  rewrite length_degrees in Lpd. rewrite length_seq in Lnc.
  eexists. split; [done|]. split; [done|].
  intros rows Hin. cbn [map In] in Hin.
  destruct Hin as [<-|[<-|[<-|[<-|[<-|[<-|[]]]]]]]; eexists; (split; [done|]);
    intros (L1 & L2 & L3 & L4); lia.
Qed.

Lemma subgraph_csvs_small (k : string) (h : graph) :
  vcount h < 3 -> subgraph_csvs k h = Ok [].
Proof. intros Hh. unfold subgraph_csvs. apply Nat.ltb_lt in Hh. rewrite Hh. done. Qed.

Lemma subgraph_csvs_big (k : string) (h : graph) :
  3 <= vcount h ->
  exists props, subgraph_props h = Ok props /\ length props = 6 /\
    subgraph_csvs k h = Ok (map (fun '(hd, rows) => SubCsv (sub_csv_file k hd) rows)
                                (combine property_headings props)).
Proof.
  intros Hh. destruct (subgraph_props_ok h Hh) as (props & Hp & Hl & _).
  exists props. split; [done|]. split; [done|].
  unfold subgraph_csvs. apply Nat.ltb_ge in Hh. rewrite Hh, Hp. cbn [bind].
  rewrite Hl.
  destruct props as [|r1 [|r2 [|r3 [|r4 [|r5 [|r6 [|]]]]]]]; cbn in Hl; try discriminate.
  done.
Qed.

End SubgraphProofs.

Section SubgraphFiles.
Context `{IGraphLib}.

(** The files of [write_subgraphs], by key of the inclusive dictionary
    after the assignment of ['0']. *)
Lemma write_subgraphs_events (s : cf_state) (graph : graph) (kr : list string)
    (of : string) (f : option string) (s' : cf_state) (evs : list sub_event) :
  write_subgraphs s graph kr of f = Ok (s', evs) ->
  s' = put_inclusive "0" graph s /\
  forall e, In e evs <->
    exists k h, <["0" := graph]> (communities_subgraph_inclusive s) !! k = Some h /\
      ((exists csvs, subgraph_csvs k h = Ok csvs /\ In e csvs) \/
       (match f with None => of | Some x => x end = "edgelist"%string /\
        exists c, tsv_lines (edge_names h) = Ok c /\
                  e = SubTsv ("subgraphs_tsv/" ++ k ++ ".tsv")%string c) \/
       e = SubJson ("subgraphs_json/" ++ k ++ ".json")%string \/
       e = SubSvg ("subgraphs_svg_render/" ++ k ++ ".svg")%string h
             (map (fun i => if bool_decide (vname h i ∈ kr)
                            then "lightblue"%string else "lightsalmon"%string)
                  (seq 0 (vcount h)))
             (svg_size (vcount h)) (svg_size (vcount h))).
Proof.
  intros Hw. unfold write_subgraphs in Hw. cbv zeta in Hw.
  match type of Hw with
  | bind (result_map ?fc ?l) _ = _ => destruct (result_map fc l) as [csvs|e] eqn:Hc
  end; cbn [bind] in Hw; [|discriminate].
  cbn [communities_subgraph_inclusive put_inclusive] in Hc, Hw.
  set (incl := <["0" := graph]> (communities_subgraph_inclusive s)) in *.
  assert (Hitems : forall k h, incl !! k = Some h <-> In (k, h) (map_to_list incl))
    by (intros k h; rewrite <- list_elem_of_In, elem_of_map_to_list; done).
  assert (Hcsv : forall e, In e (concat csvs) <->
            exists k h, incl !! k = Some h /\ exists cs, subgraph_csvs k h = Ok cs /\ In e cs).
  { intros e. rewrite in_concat. split.
    - intros (y & Hy & He). destruct (result_map_ok _ _ _ Hc) as [_ Hall].
      destruct (Hall y Hy) as ([k h] & Hkh & Hf). cbv beta iota in Hf.
      exists k, h. split; [apply Hitems; done|]. exists y. done.
    - intros (k & h & Hkh & cs & Hcs & He). apply Hitems in Hkh.
      destruct (result_map_in _ _ _ _ Hc Hkh) as (y & Hf & Hy). cbv beta iota in Hf.
      exists y. split; [done|]. congruence. }
  destruct (bool_decide (match f with None => of | Some x => x end = "edgelist"%string)) eqn:Hb.
  - apply bool_decide_eq_true in Hb.
    match type of Hw with
    | bind (result_map ?ft ?l) _ = _ => destruct (result_map ft l) as [tsvs|e] eqn:Ht
    end; cbn [bind] in Hw; [|discriminate].
    injection Hw as <- <-. split; [done|]. intros e. rewrite !in_app_iff, Hcsv, !in_map_iff. split.
    + intros [(k & h & Hkh & Hcs)|[Ht'|[([k h] & <- & Hkh)|([k h] & <- & Hkh)]]].
      * exists k, h. split; [done|]. left. done.
      * destruct (result_map_ok _ _ _ Ht) as [_ Hall].
        destruct (Hall e Ht') as ([k h] & Hkh & Hf). cbv beta iota in Hf.
        destruct (tsv_lines (edge_names h)) as [c|err] eqn:Hl; cbn [bind] in Hf; [|discriminate].
        exists k, h. split; [apply Hitems; done|]. right; left. split; [done|].
        exists c. split; [done|]. congruence.
      * exists k, h. split; [apply Hitems; done|]. right; right; left. done.
      * exists k, h. split; [apply Hitems; done|]. right; right; right. done.
    + intros (k & h & Hkh & [Hcs|[(_ & c & Hl & ->)|[->| ->]]]).
      * left. exists k, h. split; done.
      * right; left. apply Hitems in Hkh.
        destruct (result_map_in _ _ _ _ Ht Hkh) as (y & Hf & Hy). cbv beta iota in Hf.
        rewrite Hl in Hf. cbn [bind] in Hf. congruence.
      * right; right; left. exists (k, h). split; [done|]. apply Hitems. done.
      * right; right; right. exists (k, h). split; [done|]. apply Hitems. done.
  - apply bool_decide_eq_false in Hb.
    injection Hw as <- <-. split; [done|]. intros e. rewrite !in_app_iff, Hcsv, !in_map_iff. split.
    + intros [(k & h & Hkh & Hcs)|[([k h] & <- & Hkh)|([k h] & <- & Hkh)]].
      * exists k, h. split; [done|]. left. done.
      * exists k, h. split; [apply Hitems; done|]. right; right; left. done.
      * exists k, h. split; [apply Hitems; done|]. right; right; right. done.
    + intros (k & h & Hkh & [Hcs|[(Hfm & _)|[->| ->]]]).
      * left. exists k, h. split; done.
      * done.
      * right; left. exists (k, h). split; [done|]. apply Hitems. done.
      * right; right. exists (k, h). split; [done|]. apply Hitems. done.
Qed.

End SubgraphFiles.




Lemma heading_cases (hd : string) :
  In hd property_headings -> hd <> "current_degree"%string ->
  hd = "eigen_vector_centrality"%string \/ hd = "betweenness_centrality"%string \/
  hd = "closeness_centrality"%string \/ hd = "probability_degree_distribution"%string \/
  hd = "clustering_coefficient"%string \/ hd = "neighborhood_connectivity"%string.
Proof.
  intros Hin Hne. cbn [property_headings In] in Hin.
  destruct Hin as [<-|[<-|[<-|[<-|[<-|[<-|[<-|[]]]]]]]]; tauto.
Qed.

Section SubgraphCsvs.
Context `{IGraphLib}.

Lemma subgraph_csvs_in (k : string) (h : graph) (cs : list sub_event) (e : sub_event) :
  subgraph_csvs k h = Ok cs -> In e cs ->
  exists hd rows props, subgraph_props h = Ok props /\ 3 <= vcount h /\
    In hd property_headings /\ hd <> "current_degree"%string /\ In rows props /\
    e = SubCsv (sub_csv_file k hd) rows.
Proof.
  intros Hcs He. destruct (Nat.lt_ge_cases (vcount h) 3) as [Hh|Hh].
  - rewrite subgraph_csvs_small in Hcs; [|done]. injection Hcs as <-. destruct He.
  - destruct (subgraph_csvs_big k h Hh) as (props & Hp & Hl & Heq).
    rewrite Heq in Hcs. injection Hcs as <-.
    destruct props as [|r1 [|r2 [|r3 [|r4 [|r5 [|r6 [|]]]]]]]; cbn in Hl; try discriminate.
    cbn [property_headings combine map In] in He.
    destruct He as [<-|[<-|[<-|[<-|[<-|[<-|[]]]]]]];
      (refine (ex_intro _ _ (ex_intro _ _ (ex_intro _ _
                 (conj Hp (conj Hh (conj _ (conj _ (conj _ eq_refl))))))));
       [cbn; tauto|discriminate|cbn; tauto]).
Qed.

Lemma subgraph_csvs_all (k : string) (h : graph) (cs : list sub_event) (hd : string) :
  subgraph_csvs k h = Ok cs -> 3 <= vcount h ->
  In hd property_headings -> hd <> "current_degree"%string ->
  exists rows, In (SubCsv (sub_csv_file k hd) rows) cs.
Proof.
  intros Hcs Hh Hin Hne. destruct (subgraph_csvs_big k h Hh) as (props & _ & Hl & Heq).
  rewrite Heq in Hcs. injection Hcs as <-.
  destruct props as [|r1 [|r2 [|r3 [|r4 [|r5 [|r6 [|]]]]]]]; cbn in Hl; try discriminate.
  cbn [property_headings combine map In].
  destruct (heading_cases hd Hin Hne) as [-> |[-> |[-> |[-> |[-> | ->]]]]]; eexists; tauto.
Qed.

End SubgraphCsvs.


(** Extra X19: the files [write_subgraphs] writes.  For every key [k] of the
    inclusive dictionary with ['0'] mapped to the whole graph: a CSV file
    [prop_plots/k-heading.csv] for each of the first six property headings
    (never for [current_degree]) when the subgraph has at least three
    vertices and none otherwise; a TSV file [subgraphs_tsv/k.tsv] exactly
    when the format (the argument, or the object's [output_format] for
    [None]) is ["edgelist"]; and always a JSON file
    [subgraphs_json/k.json]. *)
Theorem write_subgraphs_files `{IGraphLib} (s : cf_state) (graph : graph)
    (kr : list string) (of : string) (f : option string) (s' : cf_state)
    (evs : list sub_event) :
  write_subgraphs s graph kr of f = Ok (s', evs) ->
  (forall file, (exists rows, In (SubCsv file rows) evs) <->
     exists k h hd, <["0" := graph]> (communities_subgraph_inclusive s) !! k = Some h /\
       3 <= vcount h /\ In hd property_headings /\ hd <> "current_degree"%string /\
       file = sub_csv_file k hd) /\
  (forall file, (exists c, In (SubTsv file c) evs) <->
     match f with None => of | Some x => x end = "edgelist"%string /\
     exists k h, <["0" := graph]> (communities_subgraph_inclusive s) !! k = Some h /\
       file = ("subgraphs_tsv/" ++ k ++ ".tsv")%string) /\
  (forall file, In (SubJson file) evs <->
     exists k h, <["0" := graph]> (communities_subgraph_inclusive s) !! k = Some h /\
       file = ("subgraphs_json/" ++ k ++ ".json")%string).
Proof.
  intros Hw. destruct (write_subgraphs_events s graph kr of f s' evs Hw) as [_ Hev].
  split; [|split].
  - intros file. split.
    + intros [rows Hin]. apply Hev in Hin as (k & h & Hkh & Hd).
      destruct Hd as [(cs & Hcs & Hin)|[(_ & c & _ & Heq)|[Heq|Heq]]]; try discriminate.
      destruct (subgraph_csvs_in k h cs _ Hcs Hin) as (hd & rows' & props & _ & Hh & Hhd & Hne & _ & Heq).
      injection Heq as -> _. exists k, h, hd. done.
    + intros (k & h & hd & Hkh & Hh & Hhd & Hne & ->).
      destruct (Nat.lt_ge_cases (vcount h) 3) as [Hs|_]; [lia|].
      destruct (subgraph_csvs_big k h Hh) as (props & _ & _ & Hcs).
      destruct (subgraph_csvs_all k h _ hd Hcs Hh Hhd Hne) as [rows Hin].
      exists rows. apply Hev. exists k, h. split; [done|]. left. exists (map (fun '(hd, rows) => SubCsv (sub_csv_file k hd) rows)
                                (combine property_headings props)). done.
  - intros file. split.
    + intros [c Hin]. apply Hev in Hin as (k & h & Hkh & Hd).
      destruct Hd as [(cs & Hcs & Hin)|[(Hfm & c' & _ & Heq)|[Heq|Heq]]]; try discriminate.
      * destruct (subgraph_csvs_in k h cs _ Hcs Hin) as (? & ? & ? & _ & _ & _ & _ & _ & Heq). discriminate.
      * injection Heq as -> _. split; [done|]. exists k, h. done.
    + intros (Hfm & k & h & Hkh & ->). destruct (tsv_lines_edge_names h) as [c Hc].
      exists c. apply Hev. exists k, h. split; [done|]. right; left. split; [done|]. exists c. done.
  - intros file. split.
    + intros Hin. apply Hev in Hin as (k & h & Hkh & Hd).
      destruct Hd as [(cs & Hcs & Hin)|[(Hfm & c' & _ & Heq)|[Heq|Heq]]]; try discriminate.
      * destruct (subgraph_csvs_in k h cs _ Hcs Hin) as (? & ? & ? & _ & _ & _ & _ & _ & Heq). discriminate.
      * injection Heq as ->. exists k, h. done.
    + intros (k & h & Hkh & ->). apply Hev. exists k, h. split; [done|]. right; right; left. done.
Qed.


(** Extra X21: every CSV file [write_subgraphs] writes belongs to a key of
    the inclusive dictionary whose subgraph has at least three vertices; its
    rows [[degree, value]] are sorted by degree, and when the igraph measures
    give one value per vertex its degree column lists the subgraph's vertex
    degrees, one row per vertex. *)
Theorem write_subgraphs_csv_rows `{IGraphLib} (s : cf_state) (graph : graph)
    (kr : list string) (of : string) (f : option string) (s' : cf_state)
    (evs : list sub_event) :
  write_subgraphs s graph kr of f = Ok (s', evs) ->
  forall file rows, In (SubCsv file rows) evs ->
  exists k h hd, <["0" := graph]> (communities_subgraph_inclusive s) !! k = Some h /\
    file = sub_csv_file k hd /\ 3 <= vcount h /\
    Sorted (fun a b => fst a <= fst b) rows /\
    (lib_lengths_ok h -> Permutation (map fst rows) (degrees h)).
Proof.
  intros Hw file rows Hin. destruct (write_subgraphs_events s graph kr of f s' evs Hw) as [_ Hev].
  apply Hev in Hin as (k & h & Hkh & Hd).
  destruct Hd as [(cs & Hcs & Hin)|[(_ & c & _ & Heq)|[Heq|Heq]]]; try discriminate.
  destruct (subgraph_csvs_in k h cs _ Hcs Hin) as (hd & rows' & props & Hp & Hh & _ & _ & Hr & Heq).
  injection Heq as -> ->.
  destruct (subgraph_props_ok h Hh) as (props' & Hp' & _ & Hrows).
  rewrite Hp in Hp'. injection Hp' as <-.
  destruct (Hrows rows' Hr) as (vals & -> & Hlen).
  exists k, h, hd. split; [done|]. split; [done|]. split; [done|]. split.
  - apply sort_fst_sorted.
  - intros Hok. rewrite (Permutation_map fst (sort_fst_perm _)).
    rewrite map_fst_combine; [done|]. rewrite length_degrees, Hlen; done.
Qed.

Lemma ws_two_triangles_ok :
  ws_two_triangles = Ok (ws_two_triangles_state, ws_two_triangles_events).
Proof. vm_compute. reflexivity. Qed.

Lemma write_subgraphs_files_witness :
  ws_two_triangles = Ok (ws_two_triangles_state, ws_two_triangles_events) /\
  (forall file, (exists rows, In (SubCsv file rows) ws_two_triangles_events) <->
     exists k h hd, <["0" := g_two_triangles]> (communities_subgraph_inclusive parse_two_triangles_state) !! k = Some h /\
       3 <= vcount h /\ In hd property_headings /\ hd <> "current_degree"%string /\
       file = sub_csv_file k hd) /\
  (forall file, (exists c, In (SubTsv file c) ws_two_triangles_events) <->
     "edgelist"%string = "edgelist"%string /\
     exists k h, <["0" := g_two_triangles]> (communities_subgraph_inclusive parse_two_triangles_state) !! k = Some h /\
       file = ("subgraphs_tsv/" ++ k ++ ".tsv")%string) /\
  (forall file, In (SubJson file) ws_two_triangles_events <->
     exists k h, <["0" := g_two_triangles]> (communities_subgraph_inclusive parse_two_triangles_state) !! k = Some h /\
       file = ("subgraphs_json/" ++ k ++ ".json")%string).
Proof.
  split; [exact ws_two_triangles_ok|].
  exact (@write_subgraphs_files lib_halves parse_two_triangles_state g_two_triangles kr_two_triangles
           "edgelist" None ws_two_triangles_state ws_two_triangles_events ws_two_triangles_ok).
Defined.


Lemma write_subgraphs_csv_rows_witness :
  ws_two_triangles = Ok (ws_two_triangles_state, ws_two_triangles_events) /\
  forall file rows, In (SubCsv file rows) ws_two_triangles_events ->
  exists k h hd, <["0" := g_two_triangles]> (communities_subgraph_inclusive parse_two_triangles_state) !! k = Some h /\
    file = sub_csv_file k hd /\ 3 <= vcount h /\
    Sorted (fun a b => fst a <= fst b) rows /\
    (@lib_lengths_ok lib_halves h -> Permutation (map fst rows) (degrees h)).
Proof.
  split; [exact ws_two_triangles_ok|].
  exact (@write_subgraphs_csv_rows lib_halves parse_two_triangles_state g_two_triangles kr_two_triangles
           "edgelist" None ws_two_triangles_state ws_two_triangles_events ws_two_triangles_ok).
Defined.

